(** * ktail: the pod controller (controller.go)

    A shallow embedding of [Controller] and of its handlers [onAdd],
    [onDelete], [addContainer], [deleteContainer] and [buildKey], with the
    properties of the worker registry ([ctl.tailers]) proved over it.

    Conventions of the embedding.
    - The registry [map[string]*ContainerTailer] is a [gmap string nat]: a
      [*ContainerTailer] is the index of the tailer in the list of allocated
      tailers ([objs]).
    - A [*v1.Container] is the index of a variable in [vars].  The handlers
      only ever pass [&container], the address of the variable of a [range]
      loop.  Which variable that is depends on the version of the language
      the package is compiled as: before Go 1.22 a loop declares one
      variable and assigns to it at every iteration ([onAdd], [onDelete]);
      from Go 1.22 on every iteration declares its own
      ([onAddPerIteration], [onDeletePerIteration]).  Both are modelled;
      they differ in the addresses the tailers and the goroutines hold and
      in nothing else ([handlers_agree]), and the steps of either are
      [Action]s, over which the properties of executions are stated.
    - A [*v1.Pod] is the pod itself: the informer hands out snapshots the
      controller never writes to.
    - The owner's callbacks ([enterFunc], [exitFunc], [errorFunc]) return
      nothing; a call is recorded in [trace] with the values the callback
      reads through its arguments when it is called.  [filterFunc] returns a
      [bool] and is a function of those values; its calls are recorded too.
    - [sync.Mutex] operations, the construction and the launch of a tailer,
      [Stop], and the writes to the registry are recorded in [trace] in
      program order.
    - The watch source delivers one notification at a time; a goroutine that
      runs a tailer is a separate step, [workerReturn], taken between two
      notifications. *)

From Stdlib Require Import Ascii.
From stdpp Require Import gmap strings list fin_maps.

Set Default Proof Using "Type".
Set Warnings "-clear-no-such-hyp".

(** ** Data model *)

(** [v1.Container]: the controller reads [Name] only. *)
Record Container := { Container_Name : string }.

(** [v1.Pod]: [Namespace], [Name], [Labels] and [Spec.Containers]. *)
Record Pod := {
  Pod_Namespace : string;
  Pod_Name : string;
  Pod_Labels : gmap string string;
  Pod_Containers : list Container
}.

(** The [interface{}] payload of a notification: a [*v1.Pod], or a value of
    some other dynamic type. *)
Inductive Object :=
| IsPod (pod : Pod)
| NotPod (dynamicType : string).

#[global] Instance Container_eq_dec : EqDecision Container.
Proof. solve_decision. Defined.

#[global] Instance Pod_eq_dec : EqDecision Pod.
Proof. solve_decision. Defined.

(** The zero value of [v1.Container], held by a variable before its first
    assignment. *)
Definition zeroContainer : Container := {| Container_Name := "" |}.

(** What the program does, in program order. *)
Inductive Event :=
| FilterCall (pod : Pod) (c : Container) (r : bool)
| EnterCall (pod : Pod) (c : Container)
| ExitCall (pod : Pod) (c : Container)
| ErrorCall (pod : Pod) (c : Container) (err : string)
| Lock
| Unlock
| NewTailer (t : nat)
| Go (t : nat)
| MapLoad (key : string) (found : option nat)
| MapStore (key : string) (t : nat)
| MapDelete (key : string)
| Stop (t : nat).

#[global] Instance Event_eq_dec : EqDecision Event.
Proof. solve_decision. Defined.

(** [ContainerTailer], as far as [NewContainerTailer]'s arguments go. *)
Record ContainerTailer := {
  tailer_pod : Pod;
  tailer_container : nat
}.

(** The goroutine of [addContainer]: the closure's captured variables and
    whether [tailer.Run()] has returned. *)
Record Goroutine := {
  g_tailer : nat;
  g_pod : Pod;
  g_container : nat;
  g_returned : bool
}.

(** [Controller], with the memory it points into and the log of its
    operations.  [clientset] and [eventFunc] are opaque handles that are only
    forwarded to the tailer. *)
Record Controller := {
  tailers : gmap string nat;
  namespace : string;
  labelSelector : gmap string string → bool;
  filterFunc : Pod → Container → bool;
  objs : list ContainerTailer;
  goroutines : list Goroutine;
  vars : list Container;
  trace : list Event
}.

Definition NewController (ns : string) (sel : gmap string string → bool)
    (filter : Pod → Container → bool) : Controller :=
  {| tailers := ∅; namespace := ns; labelSelector := sel;
     filterFunc := filter; objs := []; goroutines := []; vars := [];
     trace := [] |}.

Definition set_tailers (m : gmap string nat) (s : Controller) : Controller :=
  {| tailers := m; namespace := namespace s;
     labelSelector := labelSelector s; filterFunc := filterFunc s;
     objs := objs s; goroutines := goroutines s; vars := vars s;
     trace := trace s |}.

Definition set_objs (l : list ContainerTailer) (s : Controller) : Controller :=
  {| tailers := tailers s; namespace := namespace s;
     labelSelector := labelSelector s; filterFunc := filterFunc s;
     objs := l; goroutines := goroutines s; vars := vars s;
     trace := trace s |}.

Definition set_goroutines (l : list Goroutine) (s : Controller) : Controller :=
  {| tailers := tailers s; namespace := namespace s;
     labelSelector := labelSelector s; filterFunc := filterFunc s;
     objs := objs s; goroutines := l; vars := vars s;
     trace := trace s |}.

Definition set_vars (l : list Container) (s : Controller) : Controller :=
  {| tailers := tailers s; namespace := namespace s;
     labelSelector := labelSelector s; filterFunc := filterFunc s;
     objs := objs s; goroutines := goroutines s; vars := l;
     trace := trace s |}.

Definition set_trace (l : list Event) (s : Controller) : Controller :=
  {| tailers := tailers s; namespace := namespace s;
     labelSelector := labelSelector s; filterFunc := filterFunc s;
     objs := objs s; goroutines := goroutines s; vars := vars s;
     trace := l |}.

(** ** A state monad over [Controller] *)

Definition M (A : Type) : Type := Controller → A * Controller.

Definition ret {A} (a : A) : M A := fun s => (a, s).

Definition bind {A B} (m : M A) (k : A → M B) : M B :=
  fun s => let '(a, s') := m s in k a s'.

Notation "'do' x <- m ; k" := (bind m (fun x => k))
  (at level 10, x name, m at level 100, k at level 200,
   format "'[v' 'do'  x  <-  m ; '/' k ']'").
Notation "m ;; k" := (bind m (fun _ => k))
  (at level 100, k at level 200, right associativity).

(** The state a computation leaves. *)
Definition exec {A} (m : M A) (s : Controller) : Controller := snd (m s).

(** The events a step from [s] to [s'] has added to the log. *)
Definition emitted (s s' : Controller) : list Event :=
  drop (length (trace s)) (trace s').

(** *** Primitive operations *)

Definition emit (e : Event) : M unit :=
  fun s => (tt, set_trace (trace s ++ [e]) s).

(** Declaration of a range variable whose address is taken. *)
Definition newVar : M nat :=
  fun s => (length (vars s), set_vars (vars s ++ [zeroContainer]) s).

Definition assign (x : nat) (c : Container) : M unit :=
  fun s => (tt, set_vars (<[x:=c]> (vars s)) s).

Definition deref (s : Controller) (x : nat) : Container :=
  default zeroContainer (vars s !! x).

Definition load (x : nat) : M Container := fun s => (deref s x, s).

(** [ctl.labelSelector.Matches(labels.Set(pod.Labels))] *)
Definition Matches (pod : Pod) : M bool :=
  fun s => (labelSelector s (Pod_Labels pod), s).

(** [ctl.filterFunc(pod, container)] *)
Definition callFilter (pod : Pod) (container : nat) : M bool :=
  fun s =>
    let c := deref s container in
    let r := filterFunc s pod c in
    (r, set_trace (trace s ++ [FilterCall pod c r]) s).

(** [ctl.enterFunc(pod, container)] *)
Definition enterFunc (pod : Pod) (container : nat) : M unit :=
  do c <- load container; emit (EnterCall pod c).

(** [ctl.exitFunc(pod, container)] *)
Definition exitFunc (pod : Pod) (container : nat) : M unit :=
  do c <- load container; emit (ExitCall pod c).

(** [ctl.errorFunc(pod, container, err)] *)
Definition errorFunc (pod : Pod) (container : nat) (err : string) : M unit :=
  do c <- load container; emit (ErrorCall pod c err).

(** [tailer, ok := ctl.tailers[key]] *)
Definition mapLookup (key : string) : M (option nat) :=
  fun s => (tailers s !! key,
            set_trace (trace s ++ [MapLoad key (tailers s !! key)]) s).

(** [ctl.tailers[key] = tailer] *)
Definition mapStore (key : string) (t : nat) : M unit :=
  fun s => (tt, set_trace (trace s ++ [MapStore key t])
                  (set_tailers (<[key:=t]> (tailers s)) s)).

(** [delete(ctl.tailers, key)] *)
Definition mapDelete (key : string) : M unit :=
  fun s => (tt, set_trace (trace s ++ [MapDelete key])
                  (set_tailers (delete key (tailers s)) s)).

(** [NewContainerTailer(ctl.clientset, pod, container, ctl.eventFunc)]: a
    fresh tailer holding its arguments. *)
Definition NewContainerTailer (pod : Pod) (container : nat) : M nat :=
  fun s =>
    let t := length (objs s) in
    (t, set_trace (trace s ++ [NewTailer t])
          (set_objs (objs s ++ [{| tailer_pod := pod;
                                   tailer_container := container |}]) s)).

(** [go func() { if err := tailer.Run(); err != nil { ... } }()] *)
Definition go (t : nat) (pod : Pod) (container : nat) : M unit :=
  fun s =>
    (tt, set_trace (trace s ++ [Go t])
           (set_goroutines
              (goroutines s ++ [{| g_tailer := t; g_pod := pod;
                                   g_container := container;
                                   g_returned := false |}]) s)).

(** ** The controller *)

(** [fmt.Sprintf("%s/%s/%s", pod.Namespace, pod.Name, container.Name)] *)
Definition buildKey (pod : Pod) (container : Container) : string :=
  Pod_Namespace pod +:+ "/" +:+ Pod_Name pod +:+ "/" +:+
  Container_Name container.

Definition addContainer (pod : Pod) (container : nat) : M unit :=
  enterFunc pod container ;;
  emit Lock ;;
  do c <- load container;
  let key := buildKey pod c in
  do found <- mapLookup key;
  match found with
  | None =>
      do tailer <- NewContainerTailer pod container;
      go tailer pod container ;;
      mapStore key tailer
  | Some _ => ret tt
  end ;;
  emit Unlock.

Definition deleteContainer (pod : Pod) (container : nat) : M unit :=
  emit Lock ;;
  do c <- load container;
  let key := buildKey pod c in
  do found <- mapLookup key;
  match found with
  | Some tailer =>
      mapDelete key ;;
      emit (Stop tailer) ;;
      exitFunc pod container
  | None => ret tt
  end ;;
  emit Unlock.

(** [for _, container := range cs { if ctl.filterFunc(pod, &container)
    { any = true; break } }], when the loop has one variable, [x], assigned
    at every iteration (Go before 1.22). *)
Fixpoint anyLoop (pod : Pod) (x : nat) (cs : list Container) : M bool :=
  match cs with
  | [] => ret false
  | c :: cs' =>
      assign x c ;;
      do ok <- callFilter pod x;
      if ok then ret true else anyLoop pod x cs'
  end.

(** [for _, container := range cs { body(&container) }], when the loop has
    one variable, [x], assigned at every iteration (Go before 1.22). *)
Fixpoint rangeLoop (body : nat → M unit) (x : nat) (cs : list Container)
    : M unit :=
  match cs with
  | [] => ret tt
  | c :: cs' => assign x c ;; body x ;; rangeLoop body x cs'
  end.

Definition onAdd (obj : Object) : M unit :=
  match obj with
  | NotPod _ => ret tt
  | IsPod pod =>
      do ok <- Matches pod;
      if negb ok then ret tt
      else
        do x <- newVar;
        do any <- anyLoop pod x (Pod_Containers pod);
        if any then
          do y <- newVar;
          rangeLoop (addContainer pod) y (Pod_Containers pod)
        else ret tt
  end.

Definition onDelete (obj : Object) : M unit :=
  match obj with
  | NotPod _ => ret tt
  | IsPod pod =>
      do x <- newVar;
      rangeLoop (deleteContainer pod) x (Pod_Containers pod)
  end.

(** The goroutine [g] gets the result of [tailer.Run()]: [None] is [nil].
    The step exists only for a goroutine that was launched and whose [Run]
    has not returned yet. *)
Definition workerReturn (g : nat) (err : option string)
    (s : Controller) : option Controller :=
  match goroutines s !! g with
  | None => None
  | Some gr =>
      if g_returned gr then None
      else
        let s1 :=
          set_goroutines
            (<[g := {| g_tailer := g_tailer gr; g_pod := g_pod gr;
                       g_container := g_container gr;
                       g_returned := true |}]> (goroutines s)) s in
        Some match err with
             | Some e => exec (errorFunc (g_pod gr) (g_container gr) e) s1
             | None => s1
             end
  end.

(** ** Notifications *)

Inductive Notification :=
| Added (obj : Object)
| Deleted (obj : Object)
| Updated (old new : Object).

(** The handlers [Run] installs: [AddFunc], [DeleteFunc] and the empty
    [UpdateFunc]. *)
Definition handle (n : Notification) (s : Controller) : Controller :=
  match n with
  | Added obj => exec (onAdd obj) s
  | Deleted obj => exec (onDelete obj) s
  | Updated _ _ => s
  end.

Definition run (ns : list Notification) (s : Controller) : Controller :=
  foldl (fun s n => handle n s) s ns.

(** ** Classifying events *)

Definition isFilter (e : Event) : bool :=
  match e with FilterCall _ _ _ => true | _ => false end.

Definition isEnter (e : Event) : bool :=
  match e with EnterCall _ _ => true | _ => false end.

(** A call of one of the owner's callbacks. *)
Definition isHook (e : Event) : bool :=
  match e with
  | FilterCall _ _ _ | EnterCall _ _ | ExitCall _ _ | ErrorCall _ _ _ => true
  | _ => false
  end.

(** A call of [enterFunc], [exitFunc] or [errorFunc]. *)
Definition isLifecycle (e : Event) : bool :=
  match e with
  | EnterCall _ _ | ExitCall _ _ | ErrorCall _ _ _ => true
  | _ => false
  end.

(** Is the mutex held after the events [tr], when it was [held] before? *)
Fixpoint lockHeld (held : bool) (tr : list Event) : bool :=
  match tr with
  | [] => held
  | Lock :: tr' => lockHeld true tr'
  | Unlock :: tr' => lockHeld false tr'
  | _ :: tr' => lockHeld held tr'
  end.

(** No callback is called while the mutex is held. *)
Fixpoint hooksOutsideLock (held : bool) (tr : list Event) : bool :=
  match tr with
  | [] => true
  | Lock :: tr' => hooksOutsideLock true tr'
  | Unlock :: tr' => hooksOutsideLock false tr'
  | e :: tr' => (negb (isHook e) || negb held) && hooksOutsideLock held tr'
  end.

(** The containers the first loop of [onAdd] looks at: up to and including
    the first one the predicate accepts. *)
Fixpoint scanned (p : Container → bool) (cs : list Container)
    : list Container :=
  match cs with
  | [] => []
  | c :: cs' => c :: (if p c then [] else scanned p cs')
  end.

(** The tailers that were put in the registry under [key] and have not been
    asked to stop. *)
Definition liveWorkers (s : Controller) (key : string) : list nat :=
  List.filter
    (fun t => bool_decide (MapStore key t ∈ trace s)
              && negb (bool_decide (Stop t ∈ trace s)))
    (seq 0 (length (objs s))).

(** Does the string contain the separator of [buildKey]? *)
Fixpoint hasSlash (s : string) : bool :=
  match s with
  | EmptyString => false
  | String a s' => if decide (a = "/"%char) then true else hasSlash s'
  end.

(** What the log says about the registry.  A tailer put in the registry was
    allocated; so was a tailer asked to stop; a tailer is put in the registry
    under one key; and the registry holds, under each key, the tailer put
    there and not stopped since. *)
Record Inv (s : Controller) : Prop := {
  inv_stored : ∀ key t, MapStore key t ∈ trace s → t < length (objs s);
  inv_stopped : ∀ t, Stop t ∈ trace s → t < length (objs s);
  inv_one_key : ∀ t k1 k2,
    MapStore k1 t ∈ trace s → MapStore k2 t ∈ trace s → k1 = k2;
  inv_registry : ∀ key t,
    tailers s !! key = Some t ↔ MapStore key t ∈ trace s ∧ Stop t ∉ trace s
}.

(** ** Program points *)

(** What the controller does between two points of its execution: it
    handles a whole notification, or it takes one of the steps a handler is
    made of. *)
Inductive Action :=
| Handle (n : Notification)
| DeclareVar
| AssignVar (x : nat) (c : Container)
| CallFilter (pod : Pod) (container : nat)
| CallAddContainer (pod : Pod) (container : nat)
| CallDeleteContainer (pod : Pod) (container : nat).

Definition perform (a : Action) (s : Controller) : Controller :=
  match a with
  | Handle n => handle n s
  | DeclareVar => exec newVar s
  | AssignVar x c => exec (assign x c) s
  | CallFilter pod x => exec (callFilter pod x) s
  | CallAddContainer pod x => exec (addContainer pod x) s
  | CallDeleteContainer pod x => exec (deleteContainer pod x) s
  end.

Definition performAll (acts : list Action) (s : Controller) : Controller :=
  foldl (fun s a => perform a s) s acts.

(** ** Sample inputs *)

Definition c1 : Container := {| Container_Name := "c1" |}.
Definition c2 : Container := {| Container_Name := "c2" |}.

(** Pod [P1] of namespace [ns], labelled [app=x], with containers [c1] and
    [c2]. *)
Definition P1 : Pod :=
  {| Pod_Namespace := "ns"; Pod_Name := "P1";
     Pod_Labels := {[ "app" := "x" ]}; Pod_Containers := [c1; c2] |}.

(** Pod [P2], labelled [app=y]. *)
Definition P2 : Pod :=
  {| Pod_Namespace := "ns"; Pod_Name := "P2";
     Pod_Labels := {[ "app" := "y" ]}; Pod_Containers := [c1] |}.

(** The selector [app=x]. *)
Definition selectAppX (labels : gmap string string) : bool :=
  bool_decide (labels !! "app" = Some "x").

(** A predicate that accepts the containers named [c1]. *)
Definition acceptC1 (pod : Pod) (c : Container) : bool :=
  bool_decide (Container_Name c = "c1").

(** Pod [P3], labelled [app=x], with the container [c1]. *)
Definition P3 : Pod :=
  {| Pod_Namespace := "ns"; Pod_Name := "P3";
     Pod_Labels := {[ "app" := "x" ]}; Pod_Containers := [c1] |}.

(** A predicate that accepts nothing. *)
Definition acceptNone (pod : Pod) (c : Container) : bool := false.

Definition ctl0 : Controller := NewController "ns" selectAppX acceptC1.

Definition ctlNone : Controller := NewController "ns" selectAppX acceptNone.

(** The controller after [P1] was added. *)
Definition ctl1 : Controller := run [Added (IsPod P1)] ctl0.

(** Two pods whose names differ in where the separator falls. *)
Definition podAB_C : Pod :=
  {| Pod_Namespace := "a/b"; Pod_Name := "c";
     Pod_Labels := ∅; Pod_Containers := [] |}.

Definition podA_BC : Pod :=
  {| Pod_Namespace := "a"; Pod_Name := "b/c";
     Pod_Labels := ∅; Pod_Containers := [] |}.

Definition cD : Container := {| Container_Name := "d" |}.

(** What a key is made of. *)
Definition identity (pod : Pod) (c : Container) : string * string * string :=
  (Pod_Namespace pod, Pod_Name pod, Container_Name c).

(** ** Executions with worker returns *)

(** A step of the whole program: a step of the controller, or the return of
    [tailer.Run()] in one of the goroutines. *)
Inductive Step :=
| Do (a : Action)
| WorkerReturns (g : nat) (err : option string).

Definition step (st : Step) (s : Controller) : option Controller :=
  match st with
  | Do a => Some (perform a s)
  | WorkerReturns g err => workerReturn g err s
  end.

(** [None] when a goroutine is said to return that was not launched, or
    whose [Run] has returned already. *)
Fixpoint steps (l : list Step) (s : Controller) : option Controller :=
  match l with
  | [] => Some s
  | st :: l' =>
      match step st s with
      | Some s' => steps l' s'
      | None => None
      end
  end.

(** ** More about the log *)

Definition isError (e : Event) : bool :=
  match e with ErrorCall _ _ _ => true | _ => false end.

(** A read or a write of [ctl.tailers]. *)
Definition isMapAccess (e : Event) : bool :=
  match e with
  | MapLoad _ _ | MapStore _ _ | MapDelete _ => true
  | _ => false
  end.

(** The mutex is taken only when it is free and released only when it is
    held. *)
Fixpoint lockSafe (held : bool) (tr : list Event) : bool :=
  match tr with
  | [] => true
  | Lock :: tr' => negb held && lockSafe true tr'
  | Unlock :: tr' => held && lockSafe false tr'
  | _ :: tr' => lockSafe held tr'
  end.

(** [ctl.tailers] is read and written only while the mutex is held. *)
Fixpoint mapUnderLock (held : bool) (tr : list Event) : bool :=
  match tr with
  | [] => true
  | Lock :: tr' => mapUnderLock true tr'
  | Unlock :: tr' => mapUnderLock false tr'
  | e :: tr' => (negb (isMapAccess e) || held) && mapUnderLock held tr'
  end.

(** The tailers asked to stop, in the order of the calls. *)
Fixpoint stops (tr : list Event) : list nat :=
  match tr with
  | [] => []
  | Stop t :: tr' => t :: stops tr'
  | _ :: tr' => stops tr'
  end.

(** What holds of the mutex, the goroutines and the log in every execution,
    besides [Inv]. *)
Record Discipline (s : Controller) : Prop := {
  dis_lock_free : lockHeld false (trace s) = false;
  dis_lock_safe : lockSafe false (trace s) = true;
  dis_map_locked : mapUnderLock false (trace s) = true;
  dis_stop_once : NoDup (stops (trace s));
  dis_launch_len : length (goroutines s) = length (objs s);
  dis_launch : ∀ i gr, goroutines s !! i = Some gr →
    g_tailer gr = i
    ∧ objs s !! i = Some {| tailer_pod := g_pod gr;
                            tailer_container := g_container gr |};
  dis_stored : ∀ t, t < length (objs s) → ∃ key, MapStore key t ∈ trace s;
  dis_errors :
    length (List.filter isError (trace s))
    ≤ length (List.filter g_returned (goroutines s))
}.

(** [P1] is added, the tailer of [c1] fails, [P1] is added again and then
    deleted. *)
Definition sampleRun : list Step :=
  [Do (Handle (Added (IsPod P1)));
   WorkerReturns 0 (Some "boom");
   Do (Handle (Added (IsPod P1)));
   Do (Handle (Deleted (IsPod P1)))].

Definition ctlEnd : Controller := default ctl0 (steps sampleRun ctl0).

(** ** The handlers, with one variable per iteration *)

(** The first loop of [onAdd] when every iteration declares its own
    [container] (Go 1.22 and later). *)
Fixpoint anyLoopPerIteration (pod : Pod) (cs : list Container) : M bool :=
  match cs with
  | [] => ret false
  | c :: cs' =>
      do x <- newVar;
      assign x c ;;
      do ok <- callFilter pod x;
      if ok then ret true else anyLoopPerIteration pod cs'
  end.

(** [for _, container := range cs { body(&container) }] when every
    iteration declares its own [container] (Go 1.22 and later). *)
Fixpoint rangeLoopPerIteration (body : nat → M unit) (cs : list Container)
    : M unit :=
  match cs with
  | [] => ret tt
  | c :: cs' =>
      do x <- newVar;
      assign x c ;;
      body x ;;
      rangeLoopPerIteration body cs'
  end.

Definition onAddPerIteration (obj : Object) : M unit :=
  match obj with
  | NotPod _ => ret tt
  | IsPod pod =>
      do ok <- Matches pod;
      if negb ok then ret tt
      else
        do any <- anyLoopPerIteration pod (Pod_Containers pod);
        if any then
          rangeLoopPerIteration (addContainer pod) (Pod_Containers pod)
        else ret tt
  end.

Definition onDeletePerIteration (obj : Object) : M unit :=
  match obj with
  | NotPod _ => ret tt
  | IsPod pod =>
      rangeLoopPerIteration (deleteContainer pod) (Pod_Containers pod)
  end.

Definition handlePerIteration (n : Notification) (s : Controller)
    : Controller :=
  match n with
  | Added obj => exec (onAddPerIteration obj) s
  | Deleted obj => exec (onDeletePerIteration obj) s
  | Updated _ _ => s
  end.

(** What happens to the program: a notification, handled with one variable
    per iteration, or the return of [tailer.Run()] in a goroutine. *)
Inductive Occurrence :=
| Notified (n : Notification)
| Returned (g : nat) (err : option string).

Definition occur (o : Occurrence) (s : Controller) : option Controller :=
  match o with
  | Notified n => Some (handlePerIteration n s)
  | Returned g err => workerReturn g err s
  end.

Fixpoint occurAll (l : list Occurrence) (s : Controller)
    : option Controller :=
  match l with
  | [] => Some s
  | o :: l' =>
      match occur o s with
      | Some s' => occurAll l' s'
      | None => None
      end
  end.

(** Two controllers that differ at most in their variables and in the
    addresses their tailers and goroutines hold. *)
Record sameButVars (s1 s2 : Controller) : Prop := {
  sbv_tailers : tailers s1 = tailers s2;
  sbv_trace : trace s1 = trace s2;
  sbv_objs : tailer_pod <$> objs s1 = tailer_pod <$> objs s2;
  sbv_goroutines :
    (fun gr => (g_tailer gr, g_pod gr, g_returned gr)) <$> goroutines s1
    = (fun gr => (g_tailer gr, g_pod gr, g_returned gr)) <$> goroutines s2;
  sbv_selector : labelSelector s1 = labelSelector s2;
  sbv_filter : filterFunc s1 = filterFunc s2
}.

(** Every goroutine holds the address of a declared variable, and that
    variable holds the container under whose key the goroutine's tailer was
    put in the registry. *)
Record Captured (s : Controller) : Prop := {
  cap_declared : ∀ g gr, goroutines s !! g = Some gr →
    g_container gr < length (vars s);
  cap_stored : ∀ g gr, goroutines s !! g = Some gr →
    MapStore (buildKey (g_pod gr) (deref s (g_container gr))) (g_tailer gr)
    ∈ trace s
}.

(** The steps a handler is made of. *)
Definition isPrimitive (a : Action) : bool :=
  match a with Handle _ => false | _ => true end.

(** The controller after [P1] was added, with one variable per
    iteration. *)
Definition ctl1PerIteration : Controller :=
  handlePerIteration (Added (IsPod P1)) ctl0.

(** ** Basic facts about the monad and the primitive operations *)

Lemma exec_bind {A B} (m : M A) (k : A → M B) s :
  exec (bind m k) s = exec (k (fst (m s))) (exec m s).
Proof. unfold exec, bind. by destruct (m s). Qed.

Lemma exec_ret {A} (a : A) s : exec (ret a) s = s.
Proof. done. Qed.

Lemma emitted_app s s' evs : trace s' = trace s ++ evs → emitted s s' = evs.
Proof. intros H. unfold emitted. rewrite H. by rewrite drop_app_length. Qed.

Lemma emitted_refl s : emitted s s = [].
Proof. apply emitted_app. by rewrite app_nil_r. Qed.

Lemma deref_assign s x c :
  x < length (vars s) → deref (exec (assign x c) s) x = c.
Proof.
  intros Hx. unfold deref, exec, assign. simpl.
  by rewrite list_lookup_insert_eq.
Qed.

Lemma rangeLoop_cons body x c cs s :
  exec (rangeLoop body x (c :: cs)) s
  = exec (rangeLoop body x cs) (exec (body x) (exec (assign x c) s)).
Proof. simpl. by rewrite !exec_bind. Qed.

(** A loop rule: [P done s] holds of the state [s] reached after the body
    has run for the containers [done], a prefix of [cs]. *)
Lemma rangeLoop_rule (P : list Container → Controller → Prop) body x cs s :
  P [] s →
  (∀ done c rest s1, cs = done ++ c :: rest → P done s1 →
     P (done ++ [c]) (exec (body x) (exec (assign x c) s1))) →
  P cs (exec (rangeLoop body x cs) s).
Proof.
  intros H0 Hstep.
  cut (∀ rest done s1, cs = done ++ rest → P done s1 →
         P cs (exec (rangeLoop body x rest) s1)).
  { intros H. by apply (H cs [] s). }
  induction rest as [|c rest IH]; intros done s1 Hcs HP.
  - rewrite app_nil_r in Hcs. by subst.
  - rewrite rangeLoop_cons. apply (IH (done ++ [c])).
    + by rewrite <- app_assoc.
    + by apply (Hstep done c rest).
Qed.

(** ** [addContainer] and [deleteContainer], case by case *)

Lemma addContainer_present pod x s t :
  tailers s !! buildKey pod (deref s x) = Some t →
  exec (addContainer pod x) s
  = set_trace (trace s ++ [EnterCall pod (deref s x); Lock;
                           MapLoad (buildKey pod (deref s x)) (Some t);
                           Unlock]) s.
Proof.
  intros H. unfold exec, addContainer, bind, enterFunc, bind, load, emit,
    mapLookup, ret. simpl.
  change (deref (set_trace _ _) x) with (deref s x).
  rewrite H. simpl. unfold set_trace. simpl.
  by rewrite <- !app_assoc.
Qed.

Lemma addContainer_absent pod x s :
  tailers s !! buildKey pod (deref s x) = None →
  let c := deref s x in
  let key := buildKey pod c in
  let t := length (objs s) in
  exec (addContainer pod x) s
  = {| tailers := <[key:=t]> (tailers s);
       namespace := namespace s;
       labelSelector := labelSelector s;
       filterFunc := filterFunc s;
       objs := objs s ++ [{| tailer_pod := pod; tailer_container := x |}];
       goroutines := goroutines s ++ [{| g_tailer := t; g_pod := pod;
                                         g_container := x;
                                         g_returned := false |}];
       vars := vars s;
       trace := trace s ++ [EnterCall pod c; Lock; MapLoad key None;
                            NewTailer t; Go t; MapStore key t; Unlock] |}.
Proof.
  intros H. unfold exec, addContainer, bind, enterFunc, bind, load, emit,
    mapLookup, ret. simpl.
  change (deref (set_trace _ _) x) with (deref s x).
  rewrite H. simpl.
  by rewrite <- !app_assoc.
Qed.

Lemma deleteContainer_present pod x s t :
  tailers s !! buildKey pod (deref s x) = Some t →
  let c := deref s x in
  let key := buildKey pod c in
  exec (deleteContainer pod x) s
  = set_trace (trace s ++ [Lock; MapLoad key (Some t); MapDelete key;
                           Stop t; ExitCall pod c; Unlock])
      (set_tailers (delete key (tailers s)) s).
Proof.
  intros H. unfold exec, deleteContainer, bind, exitFunc, bind, load, emit,
    mapLookup, ret. unfold deref in *. simpl.
  rewrite H. simpl. unfold set_trace, set_tailers. simpl.
  by rewrite <- !app_assoc.
Qed.

Lemma deleteContainer_absent pod x s :
  tailers s !! buildKey pod (deref s x) = None →
  exec (deleteContainer pod x) s
  = set_trace (trace s ++ [Lock; MapLoad (buildKey pod (deref s x)) None;
                           Unlock]) s.
Proof.
  intros H. unfold exec, deleteContainer, bind, exitFunc, bind, load, emit,
    mapLookup, ret. unfold deref in *. simpl.
  rewrite H. simpl. unfold set_trace. simpl.
  by rewrite <- !app_assoc.
Qed.

Lemma addContainer_vars pod x s : vars (exec (addContainer pod x) s) = vars s.
Proof.
  destruct (tailers s !! buildKey pod (deref s x)) as [t|] eqn:H.
  - by rewrite (addContainer_present _ _ _ _ H).
  - by rewrite (addContainer_absent _ _ _ H).
Qed.

Lemma deleteContainer_vars pod x s :
  vars (exec (deleteContainer pod x) s) = vars s.
Proof.
  destruct (tailers s !! buildKey pod (deref s x)) as [t|] eqn:H.
  - by rewrite (deleteContainer_present _ _ _ _ H).
  - by rewrite (deleteContainer_absent _ _ _ H).
Qed.

(** The first loop of [onAdd]: its result, and what it leaves behind. *)
Lemma anyLoop_spec pod x cs s :
  x < length (vars s) →
  let r := anyLoop pod x cs s in
  fst r = existsb (filterFunc s pod) cs
  ∧ tailers (snd r) = tailers s
  ∧ objs (snd r) = objs s
  ∧ goroutines (snd r) = goroutines s
  ∧ length (vars (snd r)) = length (vars s)
  ∧ trace (snd r)
    = trace s ++ map (fun c => FilterCall pod c (filterFunc s pod c))
                     (scanned (filterFunc s pod) cs).
Proof.
  revert s. induction cs as [|c cs IH]; intros s Hx; simpl.
  - by rewrite app_nil_r.
  - unfold bind. simpl. unfold callFilter.
    change (deref (set_vars (<[x:=c]> (vars s)) s) x)
      with (deref (exec (assign x c) s) x).
    rewrite (deref_assign _ _ _ Hx). simpl.
    destruct (filterFunc s pod c) eqn:Hf; simpl.
    + by rewrite length_insert.
    + set (s1 := set_trace _ _).
      assert (Hx1 : x < length (vars s1)) by (simpl; by rewrite length_insert).
      destruct (IH s1 Hx1) as (E1 & E2 & E3 & E4 & E5 & E6).
      rewrite E1, E2, E3, E4, E5, E6. simpl.
      by rewrite length_insert, <- app_assoc.
Qed.

(** ** The registry and the workers it stands for *)

Lemma Inv_init ns sel filter : Inv (NewController ns sel filter).
Proof.
  split; simpl; intros.
  - by apply elem_of_nil in H.
  - by apply elem_of_nil in H.
  - by apply elem_of_nil in H.
  - rewrite lookup_empty, elem_of_nil. naive_solver.
Qed.

(** A step that writes neither to the registry nor to the tailers, and logs
    neither a store nor a stop, keeps the invariant. *)
Lemma Inv_quiet s s' :
  tailers s' = tailers s →
  length (objs s') = length (objs s) →
  (∀ key t, MapStore key t ∈ trace s' ↔ MapStore key t ∈ trace s) →
  (∀ t, Stop t ∈ trace s' ↔ Stop t ∈ trace s) →
  Inv s → Inv s'.
Proof.
  intros Ht Ho Hst Hsp [I1 I2 I3 I4]. split.
  - intros key t. rewrite Hst, Ho. apply I1.
  - intros t. rewrite Hsp, Ho. apply I2.
  - intros t k1 k2. rewrite !Hst. apply I3.
  - intros key t. rewrite Ht, Hst, Hsp. apply I4.
Qed.

Lemma Inv_assign x c s : Inv s → Inv (exec (assign x c) s).
Proof. by apply Inv_quiet. Qed.

Lemma Inv_newVar s : Inv s → Inv (exec newVar s).
Proof. by apply Inv_quiet. Qed.

Lemma Inv_addContainer pod x s : Inv s → Inv (exec (addContainer pod x) s).
Proof.
  intros HI.
  destruct (tailers s !! buildKey pod (deref s x)) as [t|] eqn:H.
  - rewrite (addContainer_present _ _ _ _ H).
    apply (Inv_quiet s); simpl; try done.
    + intros. rewrite elem_of_app, !elem_of_cons, elem_of_nil. naive_solver.
    + intros. rewrite elem_of_app, !elem_of_cons, elem_of_nil. naive_solver.
  - rewrite (addContainer_absent _ _ _ H).
    set (key := buildKey pod (deref s x)) in *.
    destruct HI as [I1 I2 I3 I4].
    assert (Hfresh : ∀ k, MapStore k (length (objs s)) ∉ trace s).
    { intros k Hk. apply I1 in Hk. lia. }
    assert (Hlive : Stop (length (objs s)) ∉ trace s).
    { intros Hk. apply I2 in Hk. lia. }
    split; simpl.
    + intros k t. rewrite elem_of_app, !elem_of_cons, elem_of_nil.
      rewrite length_app. simpl.
      intros [Hin|Hin]; [apply I1 in Hin; lia | naive_solver lia].
    + intros t. rewrite elem_of_app, !elem_of_cons, elem_of_nil.
      rewrite length_app. simpl.
      intros [Hin|Hin]; [apply I2 in Hin; lia | naive_solver].
    + intros t k1 k2. rewrite !elem_of_app, !elem_of_cons, !elem_of_nil.
      intros [H1|H1] [H2|H2].
      * by apply (I3 t).
      * assert (t = length (objs s)) as -> by naive_solver.
        by apply Hfresh in H1.
      * assert (t = length (objs s)) as -> by naive_solver.
        by apply Hfresh in H2.
      * naive_solver.
    + intros k t. rewrite !elem_of_app, !elem_of_cons, !elem_of_nil.
      destruct (decide (k = key)) as [->|Hne].
      * rewrite lookup_insert_eq. split.
        -- intros [= <-]. split; [naive_solver|].
           intros [Hin|Hin]; [done | naive_solver].
        -- intros [[Hin|Hin] Hns].
           ++ assert (tailers s !! key = Some t) as Hs.
              { apply I4. split; [done|]. intros Hc. apply Hns. by left. }
              congruence.
           ++ f_equal. naive_solver.
      * rewrite lookup_insert_ne by done. rewrite I4. split.
        -- intros [Hin Hns]. split; [by left|].
           intros [Hc|Hc]; [done | naive_solver].
        -- intros [[Hin|Hin] Hns]; [|naive_solver].
           split; [done|]. intros Hc. apply Hns. by left.
Qed.

Lemma Inv_deleteContainer pod x s :
  Inv s → Inv (exec (deleteContainer pod x) s).
Proof.
  intros HI.
  destruct (tailers s !! buildKey pod (deref s x)) as [t0|] eqn:H.
  - rewrite (deleteContainer_present _ _ _ _ H).
    set (key := buildKey pod (deref s x)) in *.
    destruct HI as [I1 I2 I3 I4].
    assert (Hs0 : MapStore key t0 ∈ trace s) by (by apply I4).
    split; simpl.
    + intros k t. rewrite elem_of_app, !elem_of_cons, elem_of_nil.
      intros [Hin|Hin]; [by apply (I1 k) | naive_solver].
    + intros t. rewrite elem_of_app, !elem_of_cons, elem_of_nil.
      intros [Hin|Hin]; [by apply I2|].
      assert (t = t0) as -> by naive_solver. by apply (I1 key).
    + intros t k1 k2. rewrite !elem_of_app, !elem_of_cons, !elem_of_nil.
      intros [H1|H1] [H2|H2]; [by apply (I3 t) | naive_solver..].
    + intros k t. rewrite !elem_of_app, !elem_of_cons, !elem_of_nil.
      destruct (decide (k = key)) as [->|Hne].
      * rewrite lookup_delete_eq. split; [done|].
        intros [[Hin|Hin] Hns]; [|naive_solver].
        assert (tailers s !! key = Some t) as Hs.
        { apply I4. split; [done|]. intros Hc. apply Hns. by left. }
        assert (t = t0) as -> by congruence.
        exfalso. apply Hns. right. naive_solver.
      * rewrite lookup_delete_ne by done. rewrite I4. split.
        -- intros [Hin Hns]. split; [by left|].
           intros [Hc|Hc]; [done|].
           assert (t = t0) as -> by naive_solver.
           apply Hne. by apply (I3 t0).
        -- intros [[Hin|Hin] Hns]; [|naive_solver].
           split; [done|]. intros Hc. apply Hns. by left.
  - rewrite (deleteContainer_absent _ _ _ H).
    apply (Inv_quiet s); simpl; try done.
    + intros. rewrite elem_of_app, !elem_of_cons, elem_of_nil. naive_solver.
    + intros. rewrite elem_of_app, !elem_of_cons, elem_of_nil. naive_solver.
Qed.

Lemma Inv_rangeLoop body x cs s :
  (∀ s1, Inv s1 → Inv (exec (body x) s1)) →
  Inv s → Inv (exec (rangeLoop body x cs) s).
Proof.
  intros Hbody HI.
  apply (rangeLoop_rule (fun _ s1 => Inv s1)); [done|].
  intros _ c _ s1 _ H1. by apply Hbody, Inv_assign.
Qed.

Lemma Inv_anyLoop pod x cs s :
  x < length (vars s) → Inv s → Inv (snd (anyLoop pod x cs s)).
Proof.
  intros Hx.
  destruct (anyLoop_spec pod x cs s Hx) as (_ & E2 & E3 & _ & _ & E6).
  apply Inv_quiet; [done | by rewrite E3 | |].
  - intros key t. rewrite E6, elem_of_app, list_elem_of_fmap. naive_solver.
  - intros t. rewrite E6, elem_of_app, list_elem_of_fmap. naive_solver.
Qed.

Lemma exec_onAdd pod s :
  exec (onAdd (IsPod pod)) s
  = if labelSelector s (Pod_Labels pod) then
      let s1 := exec newVar s in
      let r := anyLoop pod (length (vars s)) (Pod_Containers pod) s1 in
      if fst r then
        exec (rangeLoop (addContainer pod) (length (vars (snd r)))
                (Pod_Containers pod))
             (exec newVar (snd r))
      else snd r
    else s.
Proof.
  unfold exec at 1. unfold onAdd, bind, Matches. simpl.
  destruct (labelSelector s (Pod_Labels pod)); simpl; [|done].
  destruct (anyLoop _ _ _ _) as [[] s2]; simpl; [|done].
  unfold exec. by destruct (rangeLoop _ _ _ _).
Qed.

Lemma exec_onDelete pod s :
  exec (onDelete (IsPod pod)) s
  = exec (rangeLoop (deleteContainer pod) (length (vars s))
            (Pod_Containers pod))
         (exec newVar s).
Proof.
  unfold exec at 1. unfold onDelete, bind. simpl.
  unfold exec. by destruct (rangeLoop _ _ _ _).
Qed.

Lemma Inv_handle n s : Inv s → Inv (handle n s).
Proof.
  intros HI. destruct n as [[pod|d]|[pod|d]|]; unfold handle; try done.
  - rewrite exec_onAdd.
    destruct (labelSelector s (Pod_Labels pod)); [|done]. simpl.
    assert (Hx : length (vars s) < length (vars (exec newVar s))).
    { simpl. rewrite length_app. simpl. lia. }
    pose proof (Inv_anyLoop pod _ (Pod_Containers pod) _ Hx
                  (Inv_newVar _ HI)) as HI2.
    destruct (anyLoop _ _ _ _) as [[] s2]; simpl in *; [|done].
    apply Inv_rangeLoop; [|by apply Inv_newVar].
    intros s1. apply Inv_addContainer.
  - rewrite exec_onDelete.
    apply Inv_rangeLoop; [|by apply Inv_newVar].
    intros s1. apply Inv_deleteContainer.
Qed.

Lemma Inv_run ns s : Inv s → Inv (run ns s).
Proof.
  revert s. induction ns as [|n ns IH]; intros s HI; [done|].
  simpl. apply IH. by apply Inv_handle.
Qed.

(** Under the invariant, the live workers of a key are the registry's entry
    for that key. *)
Lemma liveWorkers_registry s key t :
  Inv s → t ∈ liveWorkers s key ↔ tailers s !! key = Some t.
Proof.
  intros [I1 I2 I3 I4]. unfold liveWorkers.
  rewrite list_elem_of_In, filter_In, <- list_elem_of_In, elem_of_seq.
  rewrite andb_true_iff, negb_true_iff, bool_decide_eq_true,
    bool_decide_eq_false, I4.
  split; [naive_solver|].
  intros [Hs Hn]. split; [|done]. apply I1 in Hs. lia.
Qed.

Lemma liveWorkers_at_most_one s key :
  Inv s → length (liveWorkers s key) ≤ 1.
Proof.
  intros HI.
  assert (Hnd : NoDup (liveWorkers s key)).
  { unfold liveWorkers. apply NoDup_ListNoDup, List.NoDup_filter,
      NoDup_ListNoDup, NoDup_seq. }
  destruct (liveWorkers s key) as [|t1 [|t2 l]] eqn:E; simpl; [lia..|].
  exfalso.
  assert (H1 : tailers s !! key = Some t1).
  { apply liveWorkers_registry; [done|]. rewrite E. set_solver. }
  assert (H2 : tailers s !! key = Some t2).
  { apply liveWorkers_registry; [done|]. rewrite E. set_solver. }
  assert (t1 = t2) as -> by congruence.
  apply NoDup_cons in Hnd as [Hnd _]. apply Hnd. set_solver.
Qed.

(** ** One iteration of the loops over a pod's containers *)

Lemma addContainer_step pod y c s :
  y < length (vars s) →
  let s' := exec (addContainer pod y) (exec (assign y c) s) in
  length (vars s') = length (vars s)
  ∧ (∃ evs, trace s' = trace s ++ evs
            ∧ List.filter isHook evs = [EnterCall pod c])
  ∧ is_Some (tailers s' !! buildKey pod c)
  ∧ (∀ k, k ≠ buildKey pod c → tailers s' !! k = tailers s !! k)
  ∧ (∀ k t, tailers s !! k = Some t → tailers s' !! k = Some t)
  ∧ objs s `prefix_of` objs s'.
Proof.
  intros Hy. set (s1 := exec (assign y c) s).
  assert (Hc : deref s1 y = c) by by apply deref_assign.
  assert (Hv : length (vars s1) = length (vars s))
    by (simpl; by rewrite length_insert).
  destruct (tailers s1 !! buildKey pod (deref s1 y)) as [t|] eqn:H; simpl.
  - rewrite (addContainer_present _ _ _ _ H), Hc. rewrite Hc in H. simpl.
    split_and!; try done. by eexists.
  - rewrite (addContainer_absent _ _ _ H), Hc. rewrite Hc in H. simpl.
    split_and!.
    + done.
    + by eexists.
    + rewrite lookup_insert_eq. by eexists.
    + intros k Hk. by rewrite lookup_insert_ne.
    + intros k t Hk. rewrite lookup_insert_ne; [done|]. intros <-.
      simpl in H. congruence.
    + by apply prefix_app_r.
Qed.

Lemma deleteContainer_step pod x c s :
  x < length (vars s) →
  let s' := exec (deleteContainer pod x) (exec (assign x c) s) in
  length (vars s') = length (vars s)
  ∧ (∀ k, k ≠ buildKey pod c → tailers s' !! k = tailers s !! k)
  ∧ (∀ k t, tailers s' !! k = Some t → tailers s !! k = Some t)
  ∧ tailers s' !! buildKey pod c = None
  ∧ objs s' = objs s.
Proof.
  intros Hx. set (s1 := exec (assign x c) s).
  assert (Hc : deref s1 x = c) by by apply deref_assign.
  destruct (tailers s1 !! buildKey pod (deref s1 x)) as [t|] eqn:H; simpl.
  - rewrite (deleteContainer_present _ _ _ _ H), Hc. rewrite Hc in H. simpl.
    repeat split.
    + by rewrite length_insert.
    + intros k Hk. by rewrite lookup_delete_ne.
    + intros k t0 Hk. apply lookup_delete_Some in Hk. naive_solver.
    + by rewrite lookup_delete_eq.
  - rewrite (deleteContainer_absent _ _ _ H). rewrite Hc in H. simpl.
    split_and!; try done. by rewrite length_insert.
Qed.

(** The second loop of [onAdd]. *)
Lemma addLoop_spec pod y cs s :
  y < length (vars s) →
  let s' := exec (rangeLoop (addContainer pod) y cs) s in
  (∃ evs, trace s' = trace s ++ evs
          ∧ List.filter isHook evs = map (EnterCall pod) cs)
  ∧ (∀ c, c ∈ cs → is_Some (tailers s' !! buildKey pod c))
  ∧ (∀ k, (∀ c, c ∈ cs → k ≠ buildKey pod c) →
          tailers s' !! k = tailers s !! k)
  ∧ (∀ k t, tailers s !! k = Some t → tailers s' !! k = Some t)
  ∧ objs s `prefix_of` objs s'.
Proof.
  intros Hy. simpl.
  apply (rangeLoop_rule (fun done s1 =>
    y < length (vars s1) ∧
    (∃ evs, trace s1 = trace s ++ evs
            ∧ List.filter isHook evs = map (EnterCall pod) done)
    ∧ (∀ c, c ∈ done → is_Some (tailers s1 !! buildKey pod c))
    ∧ (∀ k, (∀ c, c ∈ cs → k ≠ buildKey pod c) →
            tailers s1 !! k = tailers s !! k)
    ∧ (∀ k t, tailers s !! k = Some t → tailers s1 !! k = Some t)
    ∧ objs s `prefix_of` objs s1) (addContainer pod) y cs s).
  - split_and!; try done.
    + exists []. by rewrite app_nil_r.
    + intros c Hc. by apply elem_of_nil in Hc.
  - intros done c rest s1 Hcs (Hy1 & (evs & Ht & Hf) & Hin & Hfr & Hmono & Hpre).
    destruct (addContainer_step pod y c s1 Hy1)
      as (Hv & (evs1 & Ht1 & Hf1) & Hc & Hfr1 & Hmono1 & Hpre1).
    split_and!.
    + lia.
    + exists (evs ++ evs1). rewrite Ht1, Ht, <- app_assoc. split; [done|].
      by rewrite List.filter_app, Hf, Hf1, map_app.
    + intros c' [Hc'|Hc']%elem_of_app.
      * destruct (Hin c' Hc') as [t Ht']. exists t. by apply Hmono1.
      * apply list_elem_of_singleton in Hc' as ->. done.
    + intros k Hk. rewrite Hfr1; [by apply Hfr|].
      apply Hk. rewrite Hcs. set_solver.
    + intros k t Hk. by apply Hmono1, Hmono.
    + by etrans.
Qed.

(** The loop of [onDelete]. *)
Lemma deleteLoop_spec pod x cs s :
  x < length (vars s) →
  let s' := exec (rangeLoop (deleteContainer pod) x cs) s in
  (∀ c, c ∈ cs → tailers s' !! buildKey pod c = None)
  ∧ (∀ k, (∀ c, c ∈ cs → k ≠ buildKey pod c) →
          tailers s' !! k = tailers s !! k)
  ∧ (∀ k t, tailers s' !! k = Some t → tailers s !! k = Some t)
  ∧ objs s' = objs s.
Proof.
  intros Hx. simpl.
  apply (rangeLoop_rule (fun done s1 =>
    x < length (vars s1)
    ∧ (∀ c, c ∈ done → tailers s1 !! buildKey pod c = None)
    ∧ (∀ k, (∀ c, c ∈ cs → k ≠ buildKey pod c) →
            tailers s1 !! k = tailers s !! k)
    ∧ (∀ k t, tailers s1 !! k = Some t → tailers s !! k = Some t)
    ∧ objs s1 = objs s) (deleteContainer pod) x cs s).
  - split_and!; try done. intros c Hc. by apply elem_of_nil in Hc.
  - intros done c rest s1 Hcs (Hx1 & Hgone & Hfr & Hanti & Hobjs).
    destruct (deleteContainer_step pod x c s1 Hx1)
      as (Hv & Hfr1 & Hanti1 & Hc & Hobjs1).
    split_and!.
    + lia.
    + intros c' [Hc'|Hc']%elem_of_app.
      * destruct (tailers _ !! buildKey pod c') as [t|] eqn:E; [|done].
        apply Hanti1 in E. rewrite (Hgone c' Hc') in E. done.
      * apply list_elem_of_singleton in Hc' as ->. done.
    + intros k Hk. rewrite Hfr1; [by apply Hfr|].
      apply Hk. rewrite Hcs. set_solver.
    + intros k t Hk. by apply Hanti, Hanti1.
    + by rewrite Hobjs1.
Qed.

(** ** The handlers *)

Lemma filter_isHook_FilterCalls pod (f : Container → bool) cs :
  List.filter isHook (map (fun c => FilterCall pod c (f c)) cs)
  = map (fun c => FilterCall pod c (f c)) cs.
Proof. induction cs as [|c cs IH]; simpl; [done | by rewrite IH]. Qed.

Lemma scanned_all_rejected (p : Container → bool) cs :
  existsb p cs = false → scanned p cs = cs.
Proof.
  induction cs as [|c cs IH]; simpl; [done|].
  intros [Hc Hcs]%orb_false_iff. by rewrite Hc, IH.
Qed.

Lemma existsb_false_In (p : Container → bool) cs c :
  existsb p cs = false → In c cs → p c = false.
Proof.
  induction cs as [|c' cs IH]; simpl; [done|].
  intros [Hc Hcs]%orb_false_iff [->|Hin]; [done | by apply IH].
Qed.

(** [onAdd] on a pod in scope with a container the predicate accepts. *)
Lemma onAdd_accepted s pod :
  labelSelector s (Pod_Labels pod) = true →
  existsb (filterFunc s pod) (Pod_Containers pod) = true →
  let s' := exec (onAdd (IsPod pod)) s in
  List.filter isHook (emitted s s')
  = map (fun c => FilterCall pod c (filterFunc s pod c))
        (scanned (filterFunc s pod) (Pod_Containers pod))
    ++ map (EnterCall pod) (Pod_Containers pod)
  ∧ (∀ c, c ∈ Pod_Containers pod → is_Some (tailers s' !! buildKey pod c))
  ∧ (∀ k, (∀ c, c ∈ Pod_Containers pod → k ≠ buildKey pod c) →
          tailers s' !! k = tailers s !! k)
  ∧ (∀ k t, tailers s !! k = Some t → tailers s' !! k = Some t)
  ∧ objs s `prefix_of` objs s'.
Proof.
  intros Hsel Hany. cbv zeta. rewrite exec_onAdd, Hsel. cbv zeta.
  assert (Hx : length (vars s) < length (vars (exec newVar s))).
  { simpl. rewrite length_app. simpl. lia. }
  destruct (anyLoop_spec pod _ (Pod_Containers pod) _ Hx)
    as (E1 & E2 & E3 & _ & _ & E6).
  simpl in E1, E2, E3, E6. rewrite E1, Hany.
  set (s2 := snd (anyLoop _ _ _ _)) in *.
  assert (Hy : length (vars s2) < length (vars (exec newVar s2))).
  { simpl. rewrite length_app. simpl. lia. }
  destruct (addLoop_spec pod _ (Pod_Containers pod) _ Hy)
    as ((evs & Ht & Hf) & Hin & Hfr & Hmono & Hpre).
  simpl in Ht, Hfr, Hmono, Hpre. split_and!.
  - rewrite (emitted_app s _ (map (fun c => FilterCall pod c (filterFunc s pod c))
        (scanned (filterFunc s pod) (Pod_Containers pod)) ++ evs)).
    + by rewrite List.filter_app, filter_isHook_FilterCalls, Hf.
    + by rewrite Ht, E6, <- app_assoc.
  - done.
  - intros k Hk. rewrite Hfr by done. by rewrite E2.
  - intros k t Hk. apply Hmono. by rewrite E2.
  - by rewrite <- E3.
Qed.

(** [onAdd] on a pod in scope all of whose containers the predicate
    rejects. *)
Lemma onAdd_rejected s pod :
  labelSelector s (Pod_Labels pod) = true →
  existsb (filterFunc s pod) (Pod_Containers pod) = false →
  let s' := exec (onAdd (IsPod pod)) s in
  tailers s' = tailers s ∧ objs s' = objs s ∧ goroutines s' = goroutines s
  ∧ emitted s s'
    = map (fun c => FilterCall pod c false) (Pod_Containers pod).
Proof.
  intros Hsel Hany. cbv zeta. rewrite exec_onAdd, Hsel. cbv zeta.
  assert (Hx : length (vars s) < length (vars (exec newVar s))).
  { simpl. rewrite length_app. simpl. lia. }
  destruct (anyLoop_spec pod _ (Pod_Containers pod) _ Hx)
    as (E1 & E2 & E3 & E4 & _ & E6).
  simpl in E1, E2, E3, E4, E6. rewrite E1, Hany.
  split_and!; try done.
  apply emitted_app. rewrite E6, scanned_all_rejected by done.
  f_equal. apply map_ext_in. intros c Hc.
  f_equal. by apply (existsb_false_In _ _ _ Hany).
Qed.

Lemma onAdd_out_of_scope s pod :
  labelSelector s (Pod_Labels pod) = false →
  exec (onAdd (IsPod pod)) s = s.
Proof. intros Hsel. by rewrite exec_onAdd, Hsel. Qed.

(** What [onAdd] leaves alone, whatever the pod. *)
Lemma onAdd_frame s pod :
  let s' := exec (onAdd (IsPod pod)) s in
  (∀ k, (∀ c, c ∈ Pod_Containers pod → k ≠ buildKey pod c) →
        tailers s' !! k = tailers s !! k)
  ∧ (∀ k t, tailers s !! k = Some t → tailers s' !! k = Some t)
  ∧ objs s `prefix_of` objs s'.
Proof.
  cbv zeta.
  destruct (labelSelector s (Pod_Labels pod)) eqn:Hsel.
  - destruct (existsb (filterFunc s pod) (Pod_Containers pod)) eqn:Hany.
    + destruct (onAdd_accepted s pod Hsel Hany) as (_ & _ & H). exact H.
    + destruct (onAdd_rejected s pod Hsel Hany) as (E1 & E2 & _).
      cbv zeta in E1, E2. by rewrite E1, E2.
  - by rewrite onAdd_out_of_scope.
Qed.

(** What [onDelete] leaves alone, and what it removes. *)
Lemma onDelete_frame s pod :
  let s' := exec (onDelete (IsPod pod)) s in
  (∀ c, c ∈ Pod_Containers pod → tailers s' !! buildKey pod c = None)
  ∧ (∀ k, (∀ c, c ∈ Pod_Containers pod → k ≠ buildKey pod c) →
          tailers s' !! k = tailers s !! k)
  ∧ (∀ k t, tailers s' !! k = Some t → tailers s !! k = Some t)
  ∧ objs s' = objs s.
Proof.
  cbv zeta. rewrite exec_onDelete.
  assert (Hx : length (vars s) < length (vars (exec newVar s))).
  { simpl. rewrite length_app. simpl. lia. }
  apply (deleteLoop_spec pod _ (Pod_Containers pod) _ Hx).
Qed.

(** ** Keys *)

Lemma append_slash_inj (a a' r r' : string) :
  hasSlash a = false → hasSlash a' = false →
  a +:+ "/" +:+ r = a' +:+ "/" +:+ r' → a = a' ∧ r = r'.
Proof.
  revert a'. induction a as [|ch a IH]; intros [|ch' a']; simpl;
    change (String.append EmptyString ?s) with s;
    change (String.append (String ?c ?s) ?u)
      with (String c (String.append s u)).
  - intros _ _ [= H]. split; [done | exact H].
  - intros _ Hs [= <- _]. by rewrite decide_True in Hs.
  - intros Hs _ [= -> _]. by rewrite decide_True in Hs.
  - intros Hs Hs' [= -> Heq].
    destruct (decide (ch' = "/"%char)); [done|].
    destruct (IH a' Hs Hs' Heq) as [-> ->]. done.
Qed.

Lemma buildKey_inj_no_slash pod pod' c c' :
  hasSlash (Pod_Namespace pod) = false →
  hasSlash (Pod_Namespace pod') = false →
  hasSlash (Pod_Name pod) = false →
  hasSlash (Pod_Name pod') = false →
  buildKey pod c = buildKey pod' c' → identity pod c = identity pod' c'.
Proof.
  intros Hn Hn' Hp Hp' Hk. unfold buildKey in Hk.
  apply append_slash_inj in Hk as [E1 Hk]; [|done..].
  apply append_slash_inj in Hk as [E2 E3]; [|done..].
  unfold identity. by rewrite E1, E2, E3.
Qed.

(** ** The worker's goroutine *)

(** X11. When [Run] returns in a goroutine, the registry, the tailers and
    the variables are left as they were and no goroutine is added; the
    error-hook is called once if the result is an error, with the pod the
    goroutine captured and the container its address designates at that
    time, and not at all otherwise; and the same goroutine cannot return
    again. *)
Lemma workerReturn_frame g err s s' :
  workerReturn g err s = Some s' →
  tailers s' = tailers s ∧ objs s' = objs s
  ∧ length (goroutines s') = length (goroutines s)
  ∧ vars s' = vars s
  ∧ workerReturn g err s' = None
  ∧ ∃ gr, goroutines s !! g = Some gr ∧
      emitted s s'
      = match err with
        | Some e => [ErrorCall (g_pod gr) (deref s (g_container gr)) e]
        | None => []
        end.
Proof.
  unfold workerReturn.
  destruct (goroutines s !! g) as [gr|] eqn:Hg; [|done].
  destruct (g_returned gr) eqn:Hr; [done|].
  assert (Hlt : g < length (goroutines s)) by by eapply lookup_lt_Some.
  intros [= <-]. destruct err as [e|]; simpl.
  - rewrite length_insert, list_lookup_insert_eq by done. simpl.
    split_and!; try done. exists gr. split; [done|]. by apply emitted_app.
  - rewrite length_insert, list_lookup_insert_eq by done. simpl.
    split_and!; try done. exists gr. split; [done|].
    apply emitted_app. simpl. by rewrite app_nil_r.
Qed.

Lemma Inv_callFilter pod x s : Inv s → Inv (exec (callFilter pod x) s).
Proof.
  apply Inv_quiet; simpl; try done.
  - intros. rewrite elem_of_app, !elem_of_cons, elem_of_nil. naive_solver.
  - intros. rewrite elem_of_app, !elem_of_cons, elem_of_nil. naive_solver.
Qed.

Lemma Inv_perform a s : Inv s → Inv (perform a s).
Proof.
  destruct a; simpl.
  - apply Inv_handle.
  - apply Inv_newVar.
  - apply Inv_assign.
  - apply Inv_callFilter.
  - apply Inv_addContainer.
  - apply Inv_deleteContainer.
Qed.

Lemma Inv_performAll acts s : Inv s → Inv (performAll acts s).
Proof.
  revert s. induction acts as [|a acts IH]; intros s HI; [done|].
  simpl. apply IH. by apply Inv_perform.
Qed.

(** ** The claims *)

(** C1. Whatever notifications the controller has handled, and at whatever
    point of their handling, every key has at most one live worker (a tailer
    registered under the key and not stopped), and it is the registry's entry
    for the key; [addContainer] builds a tailer or writes to the registry
    only when the registry has no entry for the key it computes. *)
Theorem registry_one_worker_per_key ns sel filter (acts : list Action) key :
  let s := performAll acts (NewController ns sel filter) in
  length (liveWorkers s key) ≤ 1
  ∧ (∀ t, t ∈ liveWorkers s key ↔ tailers s !! key = Some t)
  ∧ ∀ pod x,
      let s' := exec (addContainer pod x) s in
      let k := buildKey pod (deref s x) in
      (is_Some (tailers s !! k) →
         tailers s' = tailers s ∧ objs s' = objs s
         ∧ goroutines s' = goroutines s)
      ∧ (tailers s' ≠ tailers s ∨ objs s' ≠ objs s → tailers s !! k = None).
Proof.
  intros s.
  assert (HI : Inv s) by apply Inv_performAll, Inv_init.
  split_and!.
  - by apply liveWorkers_at_most_one.
  - intros t. by apply liveWorkers_registry.
  - intros pod x s' k.
    assert (Hp : is_Some (tailers s !! k) →
              tailers s' = tailers s ∧ objs s' = objs s
              ∧ goroutines s' = goroutines s).
    { intros [t Ht]. unfold s'. by rewrite (addContainer_present _ _ _ _ Ht). }
    split; [done|].
    intros Hne. destruct (tailers s !! k) as [t|] eqn:E; [|done].
    destruct Hp as (H1 & H2 & _); [by eexists|]. naive_solver.
Qed.

Lemma registry_one_worker_per_key_witness :
  length (liveWorkers ctl1 "ns/P1/c1") ≤ 1
  ∧ liveWorkers ctl1 "ns/P1/c1" = [0]
  ∧ tailers ctl1 !! "ns/P1/c1" = Some 0.
Proof.
  pose proof (registry_one_worker_per_key "ns" selectAppX acceptC1
                [Handle (Added (IsPod P1))] "ns/P1/c1") as (H1 & H2 & _).
  split; [exact H1|]. split; [by vm_compute|].
  apply (proj1 (H2 0)). vm_compute. constructor.
Defined.

(** C2. For a pod in the selector's scope with a container the predicate
    accepts, [onAdd] calls the predicate on the containers up to the first
    accepted one and no further, then calls the enter-hook once for each
    container of the pod, in the order of the list, and leaves a registry
    entry for every container, accepted by the predicate or not. *)
Theorem onAdd_adds_every_container s pod :
  labelSelector s (Pod_Labels pod) = true →
  existsb (filterFunc s pod) (Pod_Containers pod) = true →
  let s' := exec (onAdd (IsPod pod)) s in
  List.filter isHook (emitted s s')
  = map (fun c => FilterCall pod c (filterFunc s pod c))
        (scanned (filterFunc s pod) (Pod_Containers pod))
    ++ map (EnterCall pod) (Pod_Containers pod)
  ∧ (∀ c, c ∈ Pod_Containers pod → is_Some (tailers s' !! buildKey pod c)).
Proof.
  intros Hsel Hany.
  destruct (onAdd_accepted s pod Hsel Hany) as (H1 & H2 & _). by split.
Qed.

Lemma onAdd_adds_every_container_witness :
  labelSelector ctl0 (Pod_Labels P1) = true
  ∧ existsb (filterFunc ctl0 P1) (Pod_Containers P1) = true
  ∧ filterFunc ctl0 P1 c2 = false
  ∧ List.filter isHook (emitted ctl0 (exec (onAdd (IsPod P1)) ctl0))
    = [FilterCall P1 c1 true; EnterCall P1 c1; EnterCall P1 c2]
  ∧ is_Some (tailers (exec (onAdd (IsPod P1)) ctl0) !! buildKey P1 c2).
Proof.
  assert (H1 : labelSelector ctl0 (Pod_Labels P1) = true) by by vm_compute.
  assert (H2 : existsb (filterFunc ctl0 P1) (Pod_Containers P1) = true)
    by by vm_compute.
  destruct (onAdd_adds_every_container ctl0 P1 H1 H2) as [E1 E2].
  split_and!; [done | done | by vm_compute | exact E1 |].
  apply E2. right. left.
Defined.

(** The order the claim C3 gives does not hold: with [P1] added, the
    deletion of its container [c2] calls the exit-hook before it releases
    the mutex, that is, while the mutex is held. *)
Lemma deleteContainer_exit_under_lock :
  tailers ctl1 !! buildKey P1 (deref ctl1 1) = Some 1
  ∧ emitted ctl1 (exec (deleteContainer P1 1) ctl1)
    = [Lock; MapLoad "ns/P1/c2" (Some 1); MapDelete "ns/P1/c2"; Stop 1;
       ExitCall P1 c2; Unlock]
  ∧ hooksOutsideLock false (emitted ctl1 (exec (deleteContainer P1 1) ctl1))
    = false.
Proof. by vm_compute. Qed.

(** C3, amended. When the registry has an entry for the key,
    [deleteContainer] takes the mutex, removes the entry, asks the tailer to
    stop, calls the exit-hook and then releases the mutex: the exit-hook runs
    with the mutex held.  The enter-hook of [addContainer] runs before the
    mutex is taken. *)
Theorem deleteContainer_order s pod x t :
  let c := deref s x in
  let key := buildKey pod c in
  tailers s !! key = Some t →
  emitted s (exec (deleteContainer pod x) s)
  = [Lock; MapLoad key (Some t); MapDelete key; Stop t; ExitCall pod c;
     Unlock]
  ∧ lockHeld false [Lock; MapLoad key (Some t); MapDelete key; Stop t] = true
  ∧ ∀ pod' x',
      hooksOutsideLock false (emitted s (exec (addContainer pod' x') s))
      = true.
Proof.
  intros c key H. split_and!.
  - apply emitted_app. by rewrite (deleteContainer_present _ _ _ _ H).
  - done.
  - intros pod' x'.
    destruct (tailers s !! buildKey pod' (deref s x')) as [t'|] eqn:H'.
    + by rewrite (emitted_app _ _ _
                    (f_equal trace (addContainer_present _ _ _ _ H'))).
    + by rewrite (emitted_app _ _ _
                    (f_equal trace (addContainer_absent _ _ _ H'))).
Qed.

Lemma deleteContainer_order_witness :
  tailers ctl1 !! buildKey P1 (deref ctl1 0) = Some 0
  ∧ emitted ctl1 (exec (deleteContainer P1 0) ctl1)
    = [Lock; MapLoad "ns/P1/c1" (Some 0); MapDelete "ns/P1/c1"; Stop 0;
       ExitCall P1 c1; Unlock].
Proof.
  assert (H : tailers ctl1 !! buildKey P1 (deref ctl1 0) = Some 0)
    by by vm_compute.
  split; [exact H|].
  exact (proj1 (deleteContainer_order ctl1 P1 0 0 H)).
Defined.

(** The claim C4 does not hold of all strings: two different
    (namespace, pod name, container name) have the same key. *)
Lemma buildKey_collision :
  identity podAB_C cD ≠ identity podA_BC cD
  ∧ buildKey podAB_C cD = buildKey podA_BC cD.
Proof. split; [by vm_compute | reflexivity]. Qed.

(** C4, amended. [buildKey] is injective on the
    (namespace, pod name, container name) whose namespace and pod name do
    not contain the separator: two different ones have different keys. *)
Theorem buildKey_injective pod pod' c c' :
  hasSlash (Pod_Namespace pod) = false →
  hasSlash (Pod_Namespace pod') = false →
  hasSlash (Pod_Name pod) = false →
  hasSlash (Pod_Name pod') = false →
  identity pod c ≠ identity pod' c' → buildKey pod c ≠ buildKey pod' c'.
Proof.
  intros Hn Hn' Hp Hp' Hne Hk. apply Hne.
  by apply buildKey_inj_no_slash.
Qed.

Lemma buildKey_injective_witness :
  identity P1 c1 ≠ identity P2 c1 ∧ buildKey P1 c1 ≠ buildKey P2 c1.
Proof.
  assert (Hne : identity P1 c1 ≠ identity P2 c1) by by vm_compute.
  split; [exact Hne|].
  apply (buildKey_injective P1 P2 c1 c1); [reflexivity..|exact Hne].
Defined.

(** C5. [addContainer] starts by calling the enter-hook, whatever the
    registry holds: before it takes the mutex and before it looks the key
    up.  When the registry already has an entry for the key, that is all it
    does besides releasing the mutex: no tailer is built, no goroutine is
    launched, and the registry is left as it was. *)
Theorem addContainer_again s pod x :
  let c := deref s x in
  let key := buildKey pod c in
  let s' := exec (addContainer pod x) s in
  take 3 (emitted s s')
  = [EnterCall pod c; Lock; MapLoad key (tailers s !! key)]
  ∧ ∀ t, tailers s !! key = Some t →
      tailers s' = tailers s ∧ objs s' = objs s
      ∧ goroutines s' = goroutines s
      ∧ emitted s s' = [EnterCall pod c; Lock; MapLoad key (Some t); Unlock].
Proof.
  intros c key s'. split.
  - unfold s'. destruct (tailers s !! key) as [t|] eqn:H.
    + by rewrite (emitted_app _ _ _
                    (f_equal trace (addContainer_present _ _ _ _ H))).
    + by rewrite (emitted_app _ _ _
                    (f_equal trace (addContainer_absent _ _ _ H))).
  - intros t H. unfold s'. rewrite (addContainer_present _ _ _ _ H).
    split_and!; try done. by apply emitted_app.
Qed.

Lemma addContainer_again_witness :
  tailers ctl1 !! buildKey P1 (deref ctl1 1) = Some 1
  ∧ tailers (exec (addContainer P1 1) ctl1) = tailers ctl1
  ∧ objs (exec (addContainer P1 1) ctl1) = objs ctl1
  ∧ emitted ctl1 (exec (addContainer P1 1) ctl1)
    = [EnterCall P1 c2; Lock; MapLoad "ns/P1/c2" (Some 1); Unlock].
Proof.
  assert (H : tailers ctl1 !! buildKey P1 (deref ctl1 1) = Some 1)
    by by vm_compute.
  destruct (proj2 (addContainer_again ctl1 P1 1) 1 H) as (E1 & E2 & _ & E4).
  split_and!; [exact H | exact E1 | exact E2 | exact E4].
Defined.

(** C6. [deleteContainer] on a key the registry has: the entry is removed,
    its tailer is asked to stop once and the exit-hook is called once.  On a
    key the registry does not have: the registry, the tailers and the
    goroutines are left as they were, nothing is stopped and no hook is
    called.  A second [deleteContainer] for the same key is such a call. *)
Theorem deleteContainer_once s pod x :
  let c := deref s x in
  let key := buildKey pod c in
  let s' := exec (deleteContainer pod x) s in
  let s'' := exec (deleteContainer pod x) s' in
  (∀ t, tailers s !! key = Some t →
     tailers s' = delete key (tailers s)
     ∧ emitted s s' = [Lock; MapLoad key (Some t); MapDelete key; Stop t;
                       ExitCall pod c; Unlock])
  ∧ (tailers s !! key = None →
     tailers s' = tailers s ∧ objs s' = objs s
     ∧ goroutines s' = goroutines s
     ∧ emitted s s' = [Lock; MapLoad key None; Unlock])
  ∧ tailers s'' = tailers s'
  ∧ emitted s' s'' = [Lock; MapLoad key None; Unlock].
Proof.
  intros c key s' s''.
  assert (Hd : deref s' x = c).
  { unfold deref, s'. by rewrite deleteContainer_vars. }
  assert (Hgone : tailers s' !! buildKey pod (deref s' x) = None).
  { rewrite Hd. unfold s'. destruct (tailers s !! key) as [t|] eqn:H.
    - rewrite (deleteContainer_present _ _ _ _ H). apply lookup_delete_eq.
    - by rewrite (deleteContainer_absent _ _ _ H). }
  split_and!.
  - intros t H. unfold s'. rewrite (deleteContainer_present _ _ _ _ H).
    split; [done | by apply emitted_app].
  - intros H. unfold s'. rewrite (deleteContainer_absent _ _ _ H).
    split_and!; try done. by apply emitted_app.
  - unfold s''. by rewrite (deleteContainer_absent _ _ _ Hgone).
  - unfold s''. rewrite (deleteContainer_absent _ _ _ Hgone), Hd.
    by apply emitted_app.
Qed.

Lemma deleteContainer_once_witness :
  let s' := exec (deleteContainer P1 0) ctl1 in
  tailers ctl1 !! buildKey P1 (deref ctl1 0) = Some 0
  ∧ tailers s' !! "ns/P1/c1" = None
  ∧ emitted ctl1 s'
    = [Lock; MapLoad "ns/P1/c1" (Some 0); MapDelete "ns/P1/c1"; Stop 0;
       ExitCall P1 c1; Unlock]
  ∧ tailers s' !! buildKey P1 (deref s' 0) = None
  ∧ tailers (exec (deleteContainer P1 0) s') = tailers s'
  ∧ emitted s' (exec (deleteContainer P1 0) s')
    = [Lock; MapLoad "ns/P1/c1" None; Unlock].
Proof.
  intros s'.
  assert (H : tailers ctl1 !! buildKey P1 (deref ctl1 0) = Some 0)
    by by vm_compute.
  assert (H0 : tailers s' !! buildKey P1 (deref s' 0) = None)
    by by vm_compute.
  destruct (proj1 (deleteContainer_once ctl1 P1 0) 0 H) as [E1 E2].
  destruct (proj1 (proj2 (deleteContainer_once s' P1 0)) H0)
    as (E3 & _ & _ & E4).
  split_and!; [exact H | | exact E2 | exact H0 | exact E3 | exact E4].
  unfold s'. rewrite E1. apply lookup_delete_eq.
Defined.

(** C7. For a pod out of the selector's scope [onAdd] does nothing at all.
    For a pod in scope all of whose containers the predicate rejects, it
    calls the predicate on each container and nothing else: the registry is
    left as it was, no tailer is built or launched, and neither the
    enter-hook nor the exit-hook nor the error-hook is called. *)
Theorem onAdd_filtered_out s pod :
  labelSelector s (Pod_Labels pod) = false
  ∨ existsb (filterFunc s pod) (Pod_Containers pod) = false →
  let s' := exec (onAdd (IsPod pod)) s in
  tailers s' = tailers s ∧ objs s' = objs s ∧ goroutines s' = goroutines s
  ∧ List.filter isLifecycle (emitted s s') = []
  ∧ (∀ e, e ∈ emitted s s' →
       ∃ c, c ∈ Pod_Containers pod ∧ e = FilterCall pod c false)
  ∧ (labelSelector s (Pod_Labels pod) = false → s' = s).
Proof.
  intros H. cbv zeta.
  destruct (labelSelector s (Pod_Labels pod)) eqn:Hsel.
  - destruct H as [H|H]; [done|].
    destruct (onAdd_rejected s pod Hsel H) as (E1 & E2 & E3 & E4).
    cbv zeta in E1, E2, E3, E4. rewrite E1, E2, E3, E4.
    split_and!; try done.
    + clear. induction (Pod_Containers pod) as [|c cs IH]; [done|]. exact IH.
    + intros e (c & -> & Hc)%list_elem_of_fmap. by exists c.
  - rewrite (onAdd_out_of_scope s pod Hsel), emitted_refl.
    split_and!; try done. intros e He. by apply elem_of_nil in He.
Qed.

Lemma onAdd_filtered_out_witness :
  labelSelector ctl0 (Pod_Labels P2) = false
  ∧ exec (onAdd (IsPod P2)) ctl0 = ctl0
  ∧ existsb (filterFunc ctlNone P1) (Pod_Containers P1) = false
  ∧ tailers (exec (onAdd (IsPod P1)) ctlNone) = tailers ctlNone
  ∧ List.filter isLifecycle (emitted ctlNone (exec (onAdd (IsPod P1)) ctlNone))
    = [].
Proof.
  assert (H1 : labelSelector ctl0 (Pod_Labels P2) = false) by by vm_compute.
  assert (H2 : existsb (filterFunc ctlNone P1) (Pod_Containers P1) = false)
    by by vm_compute.
  destruct (onAdd_filtered_out ctl0 P2 (or_introl H1))
    as (_ & _ & _ & _ & _ & E).
  destruct (onAdd_filtered_out ctlNone P1 (or_intror H2))
    as (E1 & _ & _ & E4 & _).
  split_and!; [exact H1 | exact (E H1) | exact H2 | exact E1 | exact E4].
Defined.

(** C9. A notification whose payload is not a pod leaves the controller as
    it was: nothing is logged, so no callback is called, no tailer is built
    or stopped, and the registry is not written to. *)
Theorem non_pod_payload_dropped d s :
  exec (onAdd (NotPod d)) s = s
  ∧ exec (onDelete (NotPod d)) s = s
  ∧ emitted s (exec (onAdd (NotPod d)) s) = []
  ∧ emitted s (exec (onDelete (NotPod d)) s) = [].
Proof.
  split_and!; try done.
  - apply emitted_refl.
  - apply emitted_refl.
Qed.

(** C10. A key that is not the key of a container of the notified pod keeps
    its entry, whether the pod is added or deleted.  [onAdd] removes no
    entry and changes no entry's tailer; [onDelete] creates no entry; and
    neither writes to a tailer that was built before. *)
Theorem notification_touches_only_its_pod s pod k :
  (∀ c, c ∈ Pod_Containers pod → k ≠ buildKey pod c) →
  let sa := exec (onAdd (IsPod pod)) s in
  let sd := exec (onDelete (IsPod pod)) s in
  tailers sa !! k = tailers s !! k
  ∧ tailers sd !! k = tailers s !! k
  ∧ (∀ k' t, tailers s !! k' = Some t → tailers sa !! k' = Some t)
  ∧ (∀ k' t, tailers sd !! k' = Some t → tailers s !! k' = Some t)
  ∧ objs s `prefix_of` objs sa
  ∧ objs sd = objs s.
Proof.
  intros Hk sa sd.
  destruct (onAdd_frame s pod) as (A1 & A2 & A3).
  destruct (onDelete_frame s pod) as (_ & D1 & D2 & D3).
  split_and!; [by apply A1 | by apply D1 | exact A2 | exact D2 | exact A3
              | exact D3].
Qed.

Lemma notification_touches_only_its_pod_witness :
  (∀ c, c ∈ Pod_Containers P3 → "ns/P1/c1" ≠ buildKey P3 c)
  ∧ is_Some (tailers (exec (onAdd (IsPod P3)) ctl1) !! "ns/P3/c1")
  ∧ tailers (exec (onAdd (IsPod P3)) ctl1) !! "ns/P1/c1" = Some 0
  ∧ tailers (exec (onDelete (IsPod P3)) ctl1) !! "ns/P1/c1" = Some 0.
Proof.
  assert (H : ∀ c, c ∈ Pod_Containers P3 → "ns/P1/c1" ≠ buildKey P3 c).
  { intros c Hc. apply list_elem_of_singleton in Hc as ->. by vm_compute. }
  destruct (notification_touches_only_its_pod ctl1 P3 "ns/P1/c1" H)
    as (E1 & E2 & _).
  split_and!; [exact H | exists 2; vm_compute; reflexivity | |].
  - transitivity (tailers ctl1 !! "ns/P1/c1"); [exact E1|].
    vm_compute. reflexivity.
  - transitivity (tailers ctl1 !! "ns/P1/c1"); [exact E2|].
    vm_compute. reflexivity.
Defined.

(** ** Properties of every execution *)

(** A property kept by the steps the handlers are made of, and by the
    return of a worker, holds throughout every execution. *)
Section Preservation.
Variable P : Controller → Prop.
Hypothesis P_newVar : ∀ s, P s → P (exec newVar s).
Hypothesis P_assign : ∀ x c s, P s → P (exec (assign x c) s).
Hypothesis P_callFilter : ∀ pod x s, P s → P (exec (callFilter pod x) s).
Hypothesis P_addContainer :
  ∀ pod x s, P s → P (exec (addContainer pod x) s).
Hypothesis P_deleteContainer :
  ∀ pod x s, P s → P (exec (deleteContainer pod x) s).

Lemma preserved_anyLoop pod x cs s : P s → P (snd (anyLoop pod x cs s)).
Proof using P_assign P_callFilter.
  revert s. induction cs as [|c cs IH]; intros s HP; [done|].
  simpl. unfold bind. simpl.
  pose proof (P_callFilter pod x _ (P_assign x c s HP)) as H1.
  unfold exec in H1. simpl in H1.
  destruct (filterFunc s pod _); simpl; [exact H1 | by apply IH].
Qed.

Lemma preserved_rangeLoop body x cs s :
  (∀ s1, P s1 → P (exec (body x) s1)) →
  P s → P (exec (rangeLoop body x cs) s).
Proof using P_assign.
  intros Hbody HP.
  apply (rangeLoop_rule (fun _ s1 => P s1)); [done|].
  intros _ c _ s1 _ H1. by apply Hbody, P_assign.
Qed.

Lemma preserved_handle n s : P s → P (handle n s).
Proof using All.
  intros HP. destruct n as [[pod|d]|[pod|d]|]; unfold handle; try done.
  - rewrite exec_onAdd.
    destruct (labelSelector s (Pod_Labels pod)); [|done]. cbv zeta.
    pose proof (preserved_anyLoop pod (length (vars s))
                  (Pod_Containers pod) _ (P_newVar _ HP)) as H2.
    destruct (anyLoop _ _ _ _) as [[] s2]; simpl in *; [|done].
    apply preserved_rangeLoop; [|by apply P_newVar].
    intros s1. apply P_addContainer.
  - rewrite exec_onDelete.
    apply preserved_rangeLoop; [|by apply P_newVar].
    intros s1. apply P_deleteContainer.
Qed.

Lemma preserved_perform a s : P s → P (perform a s).
Proof using All.
  destruct a; simpl; auto using preserved_handle.
Qed.

Hypothesis P_workerReturn :
  ∀ g err s s', workerReturn g err s = Some s' → P s → P s'.

Lemma preserved_steps l s s' : steps l s = Some s' → P s → P s'.
Proof using All.
  revert s. induction l as [|st l IH]; intros s; simpl.
  - by intros [= <-].
  - destruct st as [a|g err]; simpl.
    + intros Hl HP. apply (IH _ Hl). by apply preserved_perform.
    + destruct (workerReturn g err s) as [s1|] eqn:Hw; [|done].
      intros Hl HP. apply (IH _ Hl). by apply (P_workerReturn g err s).
Qed.
End Preservation.

(** *** The log, piece by piece *)

Lemma lockHeld_app h a b : lockHeld h (a ++ b) = lockHeld (lockHeld h a) b.
Proof. revert h. induction a as [|[] a IH]; intros h; simpl; auto. Qed.

Lemma lockSafe_app h a b :
  lockSafe h (a ++ b) = lockSafe h a && lockSafe (lockHeld h a) b.
Proof.
  revert h. induction a as [|[] a IH]; intros h; simpl; auto.
  - by rewrite IH, andb_assoc.
  - by rewrite IH, andb_assoc.
Qed.

Lemma mapUnderLock_app h a b :
  mapUnderLock h (a ++ b)
  = mapUnderLock h a && mapUnderLock (lockHeld h a) b.
Proof.
  revert h. induction a as [|[] a IH]; intros h; simpl; auto;
    by rewrite IH, andb_assoc.
Qed.

Lemma stops_app a b : stops (a ++ b) = stops a ++ stops b.
Proof. induction a as [|[] a IH]; simpl; auto. by rewrite IH. Qed.

Lemma elem_of_stops t tr : t ∈ stops tr ↔ Stop t ∈ tr.
Proof.
  induction tr as [|e tr IH]; simpl.
  - by rewrite !elem_of_nil.
  - destruct e; rewrite ?elem_of_cons, IH; naive_solver.
Qed.

Lemma returned_insert (l : list Goroutine) g gr gr' :
  l !! g = Some gr → g_returned gr = false → g_returned gr' = true →
  length (List.filter g_returned (<[g:=gr']> l))
  = S (length (List.filter g_returned l)).
Proof.
  revert g. induction l as [|a l IH]; intros [|g]; simpl; try done.
  - intros [= ->] -> ->. done.
  - intros Hl Hr Hr'. destruct (g_returned a); simpl; by rewrite (IH g).
Qed.

(** *** [Discipline] is kept *)

Lemma Discipline_init ns sel filter : Discipline (NewController ns sel filter).
Proof.
  split; simpl; try done.
  - apply NoDup_nil_2.
  - intros t Ht. lia.
Qed.

(** A step that builds and launches nothing, and whose log entries leave
    the mutex as it was, stop nothing and report no error. *)
Lemma Discipline_quiet s s' seg :
  objs s' = objs s → goroutines s' = goroutines s →
  trace s' = trace s ++ seg →
  lockHeld false seg = false → lockSafe false seg = true →
  mapUnderLock false seg = true → stops seg = [] →
  List.filter isError seg = [] →
  Discipline s → Discipline s'.
Proof.
  intros Ho Hg Ht H1 H2 H3 H4 H5 [D1 D2 D3 D4 D5 D6 D7 D8].
  split; rewrite ?Ho, ?Hg, ?Ht.
  - by rewrite lockHeld_app, D1.
  - by rewrite lockSafe_app, D1, D2.
  - by rewrite mapUnderLock_app, D1, D3.
  - by rewrite stops_app, H4, app_nil_r.
  - done.
  - done.
  - intros t Hlt. destruct (D7 t Hlt) as [key Hk]. exists key.
    rewrite elem_of_app. by left.
  - by rewrite List.filter_app, H5, app_nil_r.
Qed.

Lemma Discipline_newVar s : Discipline s → Discipline (exec newVar s).
Proof. apply (Discipline_quiet _ _ []); try done. simpl. by rewrite app_nil_r. Qed.

Lemma Discipline_assign x c s : Discipline s → Discipline (exec (assign x c) s).
Proof. apply (Discipline_quiet _ _ []); try done. simpl. by rewrite app_nil_r. Qed.

Lemma Discipline_callFilter pod x s :
  Discipline s → Discipline (exec (callFilter pod x) s).
Proof. by eapply Discipline_quiet. Qed.

Lemma Discipline_addContainer pod x s :
  Discipline s → Discipline (exec (addContainer pod x) s).
Proof.
  intros HD.
  destruct (tailers s !! buildKey pod (deref s x)) as [t|] eqn:H.
  - rewrite (addContainer_present _ _ _ _ H).
    eapply (Discipline_quiet s); [done | done | reflexivity | done..].
  - rewrite (addContainer_absent _ _ _ H).
    destruct HD as [D1 D2 D3 D4 D5 D6 D7 D8]. split; simpl.
    + by rewrite lockHeld_app, D1.
    + by rewrite lockSafe_app, D1, D2.
    + by rewrite mapUnderLock_app, D1, D3.
    + by rewrite stops_app, app_nil_r.
    + rewrite !length_app. simpl. lia.
    + intros i gr Hi. apply lookup_app_Some in Hi as [Hi|[Hge Hi]].
      * destruct (D6 i gr Hi) as [E1 E2]. split; [done|].
        by apply lookup_app_l_Some.
      * apply list_lookup_singleton_Some in Hi as [Hz <-]. simpl.
        assert (i = length (objs s)) as -> by lia. split; [done|].
        rewrite lookup_app_r by lia. by rewrite Nat.sub_diag.
    + intros t. rewrite length_app. simpl. intros Hlt.
      destruct (decide (t = length (objs s))) as [->|Hne].
      * eexists. rewrite elem_of_app. right. do 5 right. left.
      * destruct (D7 t) as [key Hk]; [lia|]. exists key.
        rewrite elem_of_app. by left.
    + rewrite !List.filter_app. simpl. rewrite !length_app. simpl. lia.
Qed.

Lemma Discipline_deleteContainer pod x s :
  Inv s → Discipline s → Discipline (exec (deleteContainer pod x) s).
Proof.
  intros HI HD.
  destruct (tailers s !! buildKey pod (deref s x)) as [t|] eqn:H.
  - rewrite (deleteContainer_present _ _ _ _ H).
    destruct HD as [D1 D2 D3 D4 D5 D6 D7 D8]. split; simpl; try done.
    + by rewrite lockHeld_app, D1.
    + by rewrite lockSafe_app, D1, D2.
    + by rewrite mapUnderLock_app, D1, D3.
    + rewrite stops_app. simpl. apply NoDup_app. split_and!.
      * done.
      * intros t' Ht' ->%list_elem_of_singleton.
        apply elem_of_stops in Ht'.
        apply (inv_registry s HI) in H as [_ Hns]. done.
      * apply NoDup_singleton.
    + intros t' Hlt. destruct (D7 t' Hlt) as [key Hk]. exists key.
      rewrite elem_of_app. by left.
    + by rewrite List.filter_app, app_nil_r.
  - rewrite (deleteContainer_absent _ _ _ H).
    eapply (Discipline_quiet s); [done | done | reflexivity | done..].
Qed.

Lemma Inv_workerReturn g err s s' :
  workerReturn g err s = Some s' → Inv s → Inv s'.
Proof.
  intros Hw. unfold workerReturn in Hw.
  destruct (goroutines s !! g) as [gr|]; [|done].
  destruct (g_returned gr); [done|]. injection Hw as <-.
  destruct err as [e|]; apply Inv_quiet; simpl; try done.
  - intros. rewrite elem_of_app, !elem_of_cons, elem_of_nil. naive_solver.
  - intros. rewrite elem_of_app, !elem_of_cons, elem_of_nil. naive_solver.
Qed.

Lemma Discipline_workerReturn g err s s' :
  workerReturn g err s = Some s' → Discipline s → Discipline s'.
Proof.
  intros Hw [D1 D2 D3 D4 D5 D6 D7 D8]. unfold workerReturn in Hw.
  destruct (goroutines s !! g) as [gr|] eqn:Hg; [|done].
  destruct (g_returned gr) eqn:Hr; [done|]. injection Hw as <-.
  set (gr' := {| g_tailer := g_tailer gr; g_pod := g_pod gr;
                 g_container := g_container gr; g_returned := true |}).
  assert (Hlaunch : ∀ i gi, <[g:=gr']> (goroutines s) !! i = Some gi →
    g_tailer gi = i
    ∧ objs s !! i = Some {| tailer_pod := g_pod gi;
                            tailer_container := g_container gi |}).
  { intros i gi Hi. destruct (decide (i = g)) as [->|Hne].
    - rewrite list_lookup_insert_eq in Hi by by eapply lookup_lt_Some.
      injection Hi as <-. by apply (D6 g gr).
    - rewrite list_lookup_insert_ne in Hi by done. by apply D6. }
  assert (Hret : length (List.filter g_returned (<[g:=gr']> (goroutines s)))
                 = S (length (List.filter g_returned (goroutines s))))
    by by apply (returned_insert _ g gr).
  destruct err as [e|]; split; simpl; rewrite ?length_insert; try done.
  - by rewrite lockHeld_app, D1.
  - by rewrite lockSafe_app, D1, D2.
  - by rewrite mapUnderLock_app, D1, D3.
  - by rewrite stops_app, app_nil_r.
  - intros t Hlt. destruct (D7 t Hlt) as [key Hk]. exists key.
    rewrite elem_of_app. by left.
  - rewrite List.filter_app, length_app, Hret. simpl. lia.
  - rewrite Hret. lia.
Qed.

(** Every state of every execution satisfies [Inv] and [Discipline]. *)
Lemma steps_good l ns sel filter s :
  steps l (NewController ns sel filter) = Some s → Inv s ∧ Discipline s.
Proof.
  intros Hl.
  apply (preserved_steps (fun s => Inv s ∧ Discipline s)) with (l := l)
    (s := NewController ns sel filter); try done.
  - intros s0 [HI HD]. split; [by apply Inv_newVar | by apply Discipline_newVar].
  - intros x c s0 [HI HD].
    split; [by apply Inv_assign | by apply Discipline_assign].
  - intros pod x s0 [HI HD].
    split; [by apply Inv_callFilter | by apply Discipline_callFilter].
  - intros pod x s0 [HI HD].
    split; [by apply Inv_addContainer | by apply Discipline_addContainer].
  - intros pod x s0 [HI HD].
    split; [by apply Inv_deleteContainer | by apply Discipline_deleteContainer].
  - intros g err s0 s1 Hw [HI HD].
    split; [by eapply Inv_workerReturn | by eapply Discipline_workerReturn].
  - split; [apply Inv_init | apply Discipline_init].
Qed.

Lemma sampleRun_ctlEnd : steps sampleRun ctl0 = Some ctlEnd.
Proof. vm_compute. reflexivity. Defined.

(** The handlers only add to the log, and leave the controller's
    configuration alone. *)
Lemma handle_trace_config n s :
  trace s `prefix_of` trace (handle n s)
  ∧ labelSelector (handle n s) = labelSelector s
  ∧ filterFunc (handle n s) = filterFunc s.
Proof.
  apply (preserved_handle
           (fun s' => trace s `prefix_of` trace s'
                      ∧ labelSelector s' = labelSelector s
                      ∧ filterFunc s' = filterFunc s)); try done.
  - intros pod x s0 (H1 & H2 & H3). split_and!; try done. simpl.
    etrans; [exact H1|]. by apply prefix_app_r.
  - intros pod x s0 (H1 & H2 & H3).
    destruct (tailers s0 !! buildKey pod (deref s0 x)) as [t|] eqn:H.
    + rewrite (addContainer_present _ _ _ _ H). split_and!; try done.
      simpl. etrans; [exact H1|]. by apply prefix_app_r.
    + rewrite (addContainer_absent _ _ _ H). split_and!; try done.
      simpl. etrans; [exact H1|]. by apply prefix_app_r.
  - intros pod x s0 (H1 & H2 & H3).
    destruct (tailers s0 !! buildKey pod (deref s0 x)) as [t|] eqn:H.
    + rewrite (deleteContainer_present _ _ _ _ H). split_and!; try done.
      simpl. etrans; [exact H1|]. by apply prefix_app_r.
    + rewrite (deleteContainer_absent _ _ _ H). split_and!; try done.
      simpl. etrans; [exact H1|]. by apply prefix_app_r.
Qed.

(** The second loop of [onAdd] when every container has its entry. *)
Lemma addLoop_registered pod y cs s :
  y < length (vars s) →
  (∀ c, c ∈ cs → is_Some (tailers s !! buildKey pod c)) →
  let s' := exec (rangeLoop (addContainer pod) y cs) s in
  tailers s' = tailers s ∧ objs s' = objs s ∧ goroutines s' = goroutines s.
Proof.
  intros Hy Hall. simpl.
  apply (rangeLoop_rule (fun _ s1 =>
    y < length (vars s1) ∧ tailers s1 = tailers s ∧ objs s1 = objs s
    ∧ goroutines s1 = goroutines s) (addContainer pod) y cs s); [done|].
  intros done c rest s1 Hcs (Hy1 & E1 & E2 & E3).
  set (s2 := exec (assign y c) s1).
  assert (Hc : deref s2 y = c) by by apply deref_assign.
  destruct (Hall c) as [t Ht]; [rewrite Hcs; set_solver|].
  assert (H : tailers s2 !! buildKey pod (deref s2 y) = Some t).
  { rewrite Hc. simpl. by rewrite E1. }
  rewrite (addContainer_present _ _ _ _ H). simpl.
  by rewrite length_insert.
Qed.

Lemma onAdd_when_registered s pod :
  (∀ c, c ∈ Pod_Containers pod → is_Some (tailers s !! buildKey pod c)) →
  let s' := exec (onAdd (IsPod pod)) s in
  tailers s' = tailers s ∧ objs s' = objs s ∧ goroutines s' = goroutines s.
Proof.
  intros Hall. cbv zeta. rewrite exec_onAdd.
  destruct (labelSelector s (Pod_Labels pod)); [|done]. cbv zeta.
  assert (Hx : length (vars s) < length (vars (exec newVar s))).
  { simpl. rewrite length_app. simpl. lia. }
  destruct (anyLoop_spec pod _ (Pod_Containers pod) _ Hx)
    as (_ & E2 & E3 & E4 & _ & _).
  simpl in E2, E3, E4.
  destruct (fst (anyLoop _ _ _ _)); [|done].
  set (s2 := snd (anyLoop _ _ _ _)) in *.
  assert (Hy : length (vars s2) < length (vars (exec newVar s2))).
  { simpl. rewrite length_app. simpl. lia. }
  destruct (addLoop_registered pod _ (Pod_Containers pod) _ Hy)
    as (F1 & F2 & F3).
  { intros c Hc. simpl. rewrite E2. by apply Hall. }
  simpl in F1, F2, F3. by rewrite F1, F2, F3.
Qed.

(** ** Further properties of the controller *)

(** X1. In every execution, a tailer that was built is either the
    registry's entry for a key and was never asked to stop, or was asked to
    stop and is no entry of the registry: no tailer runs on unregistered and
    unstopped. *)
Theorem no_worker_leaks l ns sel filter s t :
  steps l (NewController ns sel filter) = Some s →
  t < length (objs s) →
  (∃ key, tailers s !! key = Some t ∧ Stop t ∉ trace s)
  ∨ (Stop t ∈ trace s ∧ ∀ key, tailers s !! key ≠ Some t).
Proof.
  intros Hl Ht. destruct (steps_good _ _ _ _ _ Hl) as [HI HD].
  destruct (dis_stored s HD t Ht) as [key Hk].
  destruct (decide (Stop t ∈ trace s)) as [Hs|Hs].
  - right. split; [done|]. intros key' Hk'.
    by apply (inv_registry s HI) in Hk' as [_ Hns].
  - left. exists key. split; [|done]. by apply (inv_registry s HI).
Qed.

Lemma no_worker_leaks_witness :
  steps sampleRun ctl0 = Some ctlEnd
  ∧ 0 < length (objs ctlEnd)
  ∧ ((∃ key, tailers ctlEnd !! key = Some 0 ∧ Stop 0 ∉ trace ctlEnd)
     ∨ (Stop 0 ∈ trace ctlEnd ∧ ∀ key, tailers ctlEnd !! key ≠ Some 0)).
Proof.
  assert (H : 0 < length (objs ctlEnd)) by (vm_compute; lia).
  split; [exact sampleRun_ctlEnd|]. split; [exact H|].
  exact (no_worker_leaks sampleRun "ns" selectAppX acceptC1 ctlEnd 0
           sampleRun_ctlEnd H).
Defined.

(** X2. In every execution [Stop] is called at most once on a tailer, and
    only on a tailer that was put in the registry. *)
Theorem stop_called_at_most_once l ns sel filter s :
  steps l (NewController ns sel filter) = Some s →
  NoDup (stops (trace s))
  ∧ ∀ t, t ∈ stops (trace s) → ∃ key, MapStore key t ∈ trace s.
Proof.
  intros Hl. destruct (steps_good _ _ _ _ _ Hl) as [HI HD].
  split; [by apply (dis_stop_once s HD)|].
  intros t Ht%elem_of_stops.
  apply (dis_stored s HD), (inv_stopped s HI), Ht.
Qed.

Lemma stop_called_at_most_once_witness :
  steps sampleRun ctl0 = Some ctlEnd
  ∧ stops (trace ctlEnd) = [0; 1]
  ∧ NoDup (stops (trace ctlEnd)).
Proof.
  split; [exact sampleRun_ctlEnd|]. split; [by vm_compute|].
  exact (proj1 (stop_called_at_most_once sampleRun "ns" selectAppX acceptC1
                  ctlEnd sampleRun_ctlEnd)).
Defined.

(** X3. In every execution each tailer that was built has one goroutine,
    launched when the tailer was built: goroutine [i] runs tailer [i], on
    the pod and the container address the tailer was built with. *)
Theorem every_tailer_launched_once l ns sel filter s :
  steps l (NewController ns sel filter) = Some s →
  length (goroutines s) = length (objs s)
  ∧ ∀ i gr, goroutines s !! i = Some gr →
      g_tailer gr = i
      ∧ objs s !! i = Some {| tailer_pod := g_pod gr;
                              tailer_container := g_container gr |}.
Proof.
  intros Hl. destruct (steps_good _ _ _ _ _ Hl) as [_ HD].
  split; [apply (dis_launch_len s HD) | apply (dis_launch s HD)].
Qed.

Lemma every_tailer_launched_once_witness :
  steps sampleRun ctl0 = Some ctlEnd
  ∧ length (objs ctlEnd) = 2
  ∧ length (goroutines ctlEnd) = length (objs ctlEnd).
Proof.
  split; [exact sampleRun_ctlEnd|]. split; [by vm_compute|].
  exact (proj1 (every_tailer_launched_once sampleRun "ns" selectAppX acceptC1
                  ctlEnd sampleRun_ctlEnd)).
Defined.

(** X4. In every execution the controller takes its mutex only when the
    mutex is free, releases it only when it holds it, and holds it at no
    point between two steps. *)
Theorem mutex_released l ns sel filter s :
  steps l (NewController ns sel filter) = Some s →
  lockSafe false (trace s) = true ∧ lockHeld false (trace s) = false.
Proof.
  intros Hl. destruct (steps_good _ _ _ _ _ Hl) as [_ HD].
  split; [apply (dis_lock_safe s HD) | apply (dis_lock_free s HD)].
Qed.

Lemma mutex_released_witness :
  steps sampleRun ctl0 = Some ctlEnd
  ∧ lockSafe false (trace ctlEnd) = true
  ∧ lockHeld false (trace ctlEnd) = false.
Proof.
  split; [exact sampleRun_ctlEnd|].
  exact (mutex_released sampleRun "ns" selectAppX acceptC1 ctlEnd
           sampleRun_ctlEnd).
Defined.

(** X5. In every execution the registry is read and written only while the
    mutex is held. *)
Theorem registry_accessed_under_lock l ns sel filter s :
  steps l (NewController ns sel filter) = Some s →
  mapUnderLock false (trace s) = true.
Proof.
  intros Hl. destruct (steps_good _ _ _ _ _ Hl) as [_ HD].
  apply (dis_map_locked s HD).
Qed.

Lemma registry_accessed_under_lock_witness :
  steps sampleRun ctl0 = Some ctlEnd
  ∧ length (List.filter isMapAccess (trace ctlEnd)) = 10
  ∧ mapUnderLock false (trace ctlEnd) = true.
Proof.
  split; [exact sampleRun_ctlEnd|]. split; [by vm_compute|].
  exact (registry_accessed_under_lock sampleRun "ns" selectAppX acceptC1
           ctlEnd sampleRun_ctlEnd).
Defined.

(** X6. In every execution the error-hook has been called at most as many
    times as there are goroutines whose [Run] has returned, which are at
    most the tailers that were built. *)
Theorem errors_bounded_by_returns l ns sel filter s :
  steps l (NewController ns sel filter) = Some s →
  length (List.filter isError (trace s))
  ≤ length (List.filter g_returned (goroutines s))
  ∧ length (List.filter g_returned (goroutines s)) ≤ length (objs s).
Proof.
  intros Hl. destruct (steps_good _ _ _ _ _ Hl) as [_ HD].
  split; [apply (dis_errors s HD)|].
  rewrite <- (dis_launch_len s HD). apply List.filter_length_le.
Qed.

Lemma errors_bounded_by_returns_witness :
  steps sampleRun ctl0 = Some ctlEnd
  ∧ length (List.filter isError (trace ctlEnd)) = 1
  ∧ length (List.filter isError (trace ctlEnd))
    ≤ length (List.filter g_returned (goroutines ctlEnd)).
Proof.
  split; [exact sampleRun_ctlEnd|]. split; [by vm_compute|].
  exact (proj1 (errors_bounded_by_returns sampleRun "ns" selectAppX acceptC1
                  ctlEnd sampleRun_ctlEnd)).
Defined.

(** X7. Adding a pod that was just added changes nothing but the log: the
    second [onAdd] builds no tailer, launches no goroutine and leaves the
    registry as the first one left it. *)
Theorem onAdd_twice s pod :
  let s1 := exec (onAdd (IsPod pod)) s in
  let s2 := exec (onAdd (IsPod pod)) s1 in
  tailers s2 = tailers s1 ∧ objs s2 = objs s1
  ∧ goroutines s2 = goroutines s1.
Proof.
  intros s1 s2.
  destruct (handle_trace_config (Added (IsPod pod)) s) as (_ & Hsel & Hflt).
  change (handle (Added (IsPod pod)) s) with s1 in Hsel, Hflt.
  destruct (labelSelector s (Pod_Labels pod)) eqn:Hs.
  - destruct (existsb (filterFunc s pod) (Pod_Containers pod)) eqn:Hany.
    + destruct (onAdd_accepted s pod Hs Hany) as (_ & Hall & _).
      by apply onAdd_when_registered.
    + assert (H1 : existsb (filterFunc s1 pod) (Pod_Containers pod) = false)
        by by rewrite Hflt.
      destruct (onAdd_filtered_out s1 pod (or_intror H1)) as (E1 & E2 & E3 & _).
      done.
  - assert (H1 : labelSelector s1 (Pod_Labels pod) = false)
      by by rewrite Hsel.
    destruct (onAdd_filtered_out s1 pod (or_introl H1)) as (E1 & E2 & E3 & _).
    done.
Qed.

(** X8. Adding a pod none of whose containers is registered and then
    deleting it gives back the registry there was. *)
Theorem onAdd_then_onDelete s pod :
  (∀ c, c ∈ Pod_Containers pod → tailers s !! buildKey pod c = None) →
  tailers (exec (onDelete (IsPod pod)) (exec (onAdd (IsPod pod)) s))
  = tailers s.
Proof.
  intros Hfree. set (s1 := exec (onAdd (IsPod pod)) s).
  destruct (onAdd_frame s pod) as (A1 & _).
  destruct (onDelete_frame s1 pod) as (D0 & D1 & _).
  apply map_eq. intros k.
  destruct (decide (k ∈ buildKey pod <$> Pod_Containers pod)) as [Hin|Hnin].
  - apply list_elem_of_fmap in Hin as (c & -> & Hc).
    by rewrite (D0 c Hc), (Hfree c Hc).
  - assert (Hk : ∀ c, c ∈ Pod_Containers pod → k ≠ buildKey pod c).
    { intros c Hc ->. apply Hnin, list_elem_of_fmap. by exists c. }
    rewrite (D1 k Hk). unfold s1. by rewrite (A1 k Hk).
Qed.

Lemma onAdd_then_onDelete_witness :
  (∀ c, c ∈ Pod_Containers P3 → tailers ctl1 !! buildKey P3 c = None)
  ∧ tailers (exec (onDelete (IsPod P3)) (exec (onAdd (IsPod P3)) ctl1))
    = tailers ctl1.
Proof.
  assert (H : ∀ c, c ∈ Pod_Containers P3 →
                   tailers ctl1 !! buildKey P3 c = None).
  { intros c Hc. apply list_elem_of_singleton in Hc as ->.
    vm_compute. reflexivity. }
  split; [exact H|]. exact (onAdd_then_onDelete ctl1 P3 H).
Defined.

(** X9. In every execution, [onDelete] leaves no entry for any container of
    its pod, whatever the selector and the predicate say of the pod, and the
    tailer of each entry it removes is asked to stop by it. *)
Theorem onDelete_stops_every_container l ns sel filter s pod c t :
  steps l (NewController ns sel filter) = Some s →
  c ∈ Pod_Containers pod →
  tailers s !! buildKey pod c = Some t →
  let s' := exec (onDelete (IsPod pod)) s in
  tailers s' !! buildKey pod c = None
  ∧ (Stop t ∉ trace s) ∧ (Stop t ∈ trace s').
Proof.
  intros Hl Hc Ht s'. destruct (steps_good _ _ _ _ _ Hl) as [HI _].
  assert (HI' : Inv s') by apply (Inv_handle (Deleted (IsPod pod)) s HI).
  destruct (onDelete_frame s pod) as (D0 & _).
  destruct (handle_trace_config (Deleted (IsPod pod)) s) as ([evs Hp] & _).
  change (handle (Deleted (IsPod pod)) s) with s' in Hp.
  apply (inv_registry s HI) in Ht as [Hst Hns].
  split_and!; [by apply D0 | done |].
  destruct (decide (Stop t ∈ trace s')) as [Hs|Hs]; [done|].
  assert (tailers s' !! buildKey pod c = Some t) as Hsome.
  { apply (inv_registry s' HI'). split; [|done].
    rewrite Hp, elem_of_app. by left. }
  unfold s' in Hsome. rewrite (D0 c Hc) in Hsome. done.
Qed.

Lemma onDelete_stops_every_container_witness :
  steps [Do (Handle (Added (IsPod P1)))] ctl0 = Some ctl1
  ∧ c2 ∈ Pod_Containers P1
  ∧ tailers ctl1 !! buildKey P1 c2 = Some 1
  ∧ tailers (exec (onDelete (IsPod P1)) ctl1) !! buildKey P1 c2 = None
  ∧ Stop 1 ∈ trace (exec (onDelete (IsPod P1)) ctl1).
Proof.
  assert (H1 : steps [Do (Handle (Added (IsPod P1)))] ctl0 = Some ctl1)
    by reflexivity.
  assert (H2 : c2 ∈ Pod_Containers P1) by (right; left).
  assert (H3 : tailers ctl1 !! buildKey P1 c2 = Some 1)
    by (vm_compute; reflexivity).
  destruct (onDelete_stops_every_container _ "ns" selectAppX acceptC1
              ctl1 P1 c2 1 H1 H2 H3) as (E1 & _ & E3).
  split_and!; [exact H1 | exact H2 | exact H3 | exact E1 | exact E3].
Defined.

Lemma append_inj_r (a r r' : string) : a +:+ r = a +:+ r' → r = r'.
Proof.
  induction a as [|ch a IH];
    change (String.append EmptyString ?s) with s;
    change (String.append (String ?c ?s) ?u)
      with (String c (String.append s u)).
  - done.
  - intros [= H]. by apply IH.
Qed.

(** X10. The keys of two containers of pods of the same namespace and name
    are equal exactly when the containers have the same name, whatever
    characters the names are made of. *)
Theorem buildKey_same_pod pod pod' c c' :
  Pod_Namespace pod = Pod_Namespace pod' →
  Pod_Name pod = Pod_Name pod' →
  buildKey pod c = buildKey pod' c' ↔ Container_Name c = Container_Name c'.
Proof.
  intros Hn Hp. unfold buildKey. rewrite Hn, Hp. split.
  - intros H. by do 4 apply append_inj_r in H.
  - by intros ->.
Qed.

Lemma buildKey_same_pod_witness :
  Pod_Namespace P1 = Pod_Namespace P1
  ∧ Pod_Name P1 = Pod_Name P1
  ∧ buildKey P1 c1 ≠ buildKey P1 c2.
Proof.
  split; [reflexivity|]. split; [reflexivity|].
  intros H.
  apply (buildKey_same_pod P1 P1 c1 c2 eq_refl eq_refl) in H.
  discriminate H.
Defined.

Lemma workerReturn_frame_witness :
  workerReturn 1 None ctl1 = Some (default ctl1 (workerReturn 1 None ctl1))
  ∧ tailers (default ctl1 (workerReturn 1 None ctl1)) = tailers ctl1.
Proof.
  assert (H : workerReturn 1 None ctl1
              = Some (default ctl1 (workerReturn 1 None ctl1)))
    by (vm_compute; reflexivity).
  split; [exact H|].
  exact (proj1 (workerReturn_frame 1 None ctl1 _ H)).
Defined.

(** X13. Worker returns change nothing to the registry's discipline: in
    every execution, with [Run] returning in any goroutine at any point
    between two steps of the controller, every key has at most one live
    worker, and it is the registry's entry for the key. *)
Theorem one_worker_per_key_with_returns l ns sel filter s key :
  steps l (NewController ns sel filter) = Some s →
  length (liveWorkers s key) ≤ 1
  ∧ ∀ t, t ∈ liveWorkers s key ↔ tailers s !! key = Some t.
Proof.
  intros Hl. destruct (steps_good _ _ _ _ _ Hl) as [HI _].
  split; [by apply liveWorkers_at_most_one|].
  intros t. by apply liveWorkers_registry.
Qed.

Lemma one_worker_per_key_with_returns_witness :
  steps (take 3 sampleRun) ctl0
  = Some (default ctl0 (steps (take 3 sampleRun) ctl0))
  ∧ liveWorkers (default ctl0 (steps (take 3 sampleRun) ctl0)) "ns/P1/c1"
    = [0]
  ∧ length (liveWorkers (default ctl0 (steps (take 3 sampleRun) ctl0))
              "ns/P1/c1") ≤ 1.
Proof.
  assert (H : steps (take 3 sampleRun) ctl0
              = Some (default ctl0 (steps (take 3 sampleRun) ctl0)))
    by (vm_compute; reflexivity).
  split; [exact H|]. split; [vm_compute; reflexivity|].
  exact (proj1 (one_worker_per_key_with_returns _ "ns" selectAppX acceptC1
                  _ "ns/P1/c1" H)).
Defined.

(** X14. A worker whose [Run] has returned, with an error or not, is not
    started again: its entry stays in the registry, and a later [onAdd] of a
    pod whose containers all have their entries builds no tailer and
    launches no goroutine. *)
Theorem returned_worker_not_restarted g err s s' pod :
  workerReturn g err s = Some s' →
  (∀ c, c ∈ Pod_Containers pod → is_Some (tailers s !! buildKey pod c)) →
  let s'' := exec (onAdd (IsPod pod)) s' in
  tailers s'' = tailers s ∧ objs s'' = objs s
  ∧ length (goroutines s'') = length (goroutines s).
Proof.
  intros Hw Hall s''.
  destruct (workerReturn_frame g err s s' Hw) as (E1 & E2 & E3 & _).
  destruct (onAdd_when_registered s' pod) as (F1 & F2 & F3).
  { intros c Hc. rewrite E1. by apply Hall. }
  unfold s''. by rewrite F1, F2, F3, E1, E2, E3.
Qed.

Lemma returned_worker_not_restarted_witness :
  workerReturn 0 (Some "boom") ctl1
  = Some (default ctl1 (workerReturn 0 (Some "boom") ctl1))
  ∧ (∀ c, c ∈ Pod_Containers P1 → is_Some (tailers ctl1 !! buildKey P1 c))
  ∧ objs (exec (onAdd (IsPod P1))
            (default ctl1 (workerReturn 0 (Some "boom") ctl1)))
    = objs ctl1.
Proof.
  assert (H : workerReturn 0 (Some "boom") ctl1
              = Some (default ctl1 (workerReturn 0 (Some "boom") ctl1)))
    by (vm_compute; reflexivity).
  assert (H2 : ∀ c, c ∈ Pod_Containers P1 →
                    is_Some (tailers ctl1 !! buildKey P1 c)).
  { intros c Hc. apply elem_of_cons in Hc as [->|Hc].
    - exists 0. vm_compute. reflexivity.
    - apply list_elem_of_singleton in Hc as ->. exists 1.
      vm_compute. reflexivity. }
  split; [exact H|]. split; [exact H2|].
  exact (proj1 (proj2 (returned_worker_not_restarted 0 (Some "boom") ctl1 _
                         P1 H H2))).
Defined.

(** ** The error-hook *)

Lemma workerReturn_done g err err' s s' :
  workerReturn g err s = Some s' → workerReturn g err' s' = None.
Proof.
  unfold workerReturn.
  destruct (goroutines s !! g) as [gr|] eqn:Hg; [|done].
  destruct (g_returned gr) eqn:Hr; [done|].
  assert (Hlt : g < length (goroutines s)) by by eapply lookup_lt_Some.
  intros [= <-]. destruct err as [e|]; simpl;
    by rewrite list_lookup_insert_eq.
Qed.

(** An entry stays through a notification that is not the deletion of a
    pod with a container of that key. *)
Lemma handle_keeps_entry n s key t :
  tailers s !! key = Some t →
  (∀ pod c, n = Deleted (IsPod pod) → c ∈ Pod_Containers pod →
            key ≠ buildKey pod c) →
  tailers (handle n s) !! key = Some t.
Proof.
  intros Ht Hn. destruct n as [[pod|d]|[pod|d]|]; unfold handle; try done.
  - destruct (onAdd_frame s pod) as (_ & Hmono & _). by apply Hmono.
  - destruct (onDelete_frame s pod) as (_ & Hfr & _).
    rewrite Hfr; [done|]. intros c Hc. by apply (Hn pod c).
Qed.

Lemma run_keeps_entry ns s key t :
  tailers s !! key = Some t →
  (∀ pod c, Deleted (IsPod pod) ∈ ns → c ∈ Pod_Containers pod →
            key ≠ buildKey pod c) →
  tailers (run ns s) !! key = Some t.
Proof.
  revert s. induction ns as [|n ns IH]; intros s Ht Hns; [done|].
  simpl. apply IH.
  - apply handle_keeps_entry; [done|].
    intros pod c -> Hc. apply (Hns pod c); [left | done].
  - intros pod c Hin Hc. apply (Hns pod c); [by right | done].
Qed.

(** C8. In every execution, when [Run] returns an error in the goroutine of
    a worker, the controller calls the error-hook once, with the pod and the
    container address the worker was built with and that error; the
    goroutine cannot report again.  Nothing is built or launched in
    response, so the worker is not restarted, and the registry is left as it
    was: an entry stays through the return and through every later
    notification that is not the deletion of a pod with a container of its
    key. *)
Theorem error_hook_once l ns sel filter s g gr e :
  steps l (NewController ns sel filter) = Some s →
  goroutines s !! g = Some gr →
  g_returned gr = false →
  ∃ s',
    workerReturn g (Some e) s = Some s'
    ∧ objs s !! g_tailer gr
      = Some {| tailer_pod := g_pod gr;
                tailer_container := g_container gr |}
    ∧ emitted s s' = [ErrorCall (g_pod gr) (deref s (g_container gr)) e]
    ∧ (∀ err', workerReturn g err' s' = None)
    ∧ tailers s' = tailers s
    ∧ objs s' = objs s
    ∧ length (goroutines s') = length (goroutines s)
    ∧ ∀ key t later,
        tailers s !! key = Some t →
        (∀ pod c, Deleted (IsPod pod) ∈ later → c ∈ Pod_Containers pod →
                  key ≠ buildKey pod c) →
        tailers (run later s') !! key = Some t.
Proof.
  intros Hl Hg Hr. destruct (steps_good _ _ _ _ _ Hl) as [_ HD].
  destruct (dis_launch s HD g gr Hg) as [Hgt Hobj].
  assert (Hw : ∃ s', workerReturn g (Some e) s = Some s').
  { unfold workerReturn. rewrite Hg, Hr. by eexists. }
  destruct Hw as [s' Hw]. exists s'.
  assert (Hs' : tailers s' = tailers s ∧ objs s' = objs s
                ∧ length (goroutines s') = length (goroutines s)
                ∧ trace s' = trace s
                    ++ [ErrorCall (g_pod gr) (deref s (g_container gr)) e]).
  { unfold workerReturn in Hw. rewrite Hg, Hr in Hw. injection Hw as <-.
    simpl. by rewrite length_insert. }
  destruct Hs' as (E1 & E2 & E3 & E4).
  split_and!; try done.
  - by rewrite Hgt.
  - by apply emitted_app.
  - intros err'. by apply (workerReturn_done g (Some e) err' s).
  - intros key t later Ht Hlater. apply run_keeps_entry; [|done].
    by rewrite E1.
Qed.

Lemma error_hook_once_witness :
  steps [Do (Handle (Added (IsPod P1)))] ctl0 = Some ctl1
  ∧ g_returned <$> goroutines ctl1 !! 0 = Some false
  ∧ ∃ s', workerReturn 0 (Some "boom") ctl1 = Some s'
          ∧ tailers s' = tailers ctl1
          ∧ tailers (run [Added (IsPod P1)] s') !! "ns/P1/c1" = Some 0.
Proof.
  assert (H1 : steps [Do (Handle (Added (IsPod P1)))] ctl0 = Some ctl1)
    by reflexivity.
  assert (H2 : goroutines ctl1 !! 0
               = Some {| g_tailer := 0; g_pod := P1; g_container := 1;
                         g_returned := false |})
    by (vm_compute; reflexivity).
  destruct (error_hook_once _ "ns" selectAppX acceptC1 ctl1 0 _ "boom"
              H1 H2 eq_refl)
    as (s' & E1 & _ & _ & _ & E5 & _ & _ & E8).
  split; [exact H1|]. split; [by rewrite H2|].
  exists s'. split_and!; [exact E1 | exact E5 |].
  apply E8; [vm_compute; reflexivity|].
  intros pod c Hin. apply list_elem_of_singleton in Hin. discriminate Hin.
Defined.

(** ** One variable per loop or one per iteration *)

Lemma rangeLoopPerIteration_cons body c cs s :
  exec (rangeLoopPerIteration body (c :: cs)) s
  = exec (rangeLoopPerIteration body cs)
      (exec (body (length (vars s)))
         (exec (assign (length (vars s)) c) (exec newVar s))).
Proof. simpl. by rewrite !exec_bind. Qed.

Lemma declared_vars c s :
  vars (exec (assign (length (vars s)) c) (exec newVar s)) = vars s ++ [c].
Proof.
  simpl. rewrite insert_app_r_alt by lia. by rewrite Nat.sub_diag.
Qed.

Lemma declared_deref c s :
  deref (exec (assign (length (vars s)) c) (exec newVar s)) (length (vars s))
  = c.
Proof.
  apply deref_assign. simpl. rewrite length_app. simpl. lia.
Qed.

Lemma exec_onAddPerIteration pod s :
  exec (onAddPerIteration (IsPod pod)) s
  = if labelSelector s (Pod_Labels pod) then
      let r := anyLoopPerIteration pod (Pod_Containers pod) s in
      if fst r then
        exec (rangeLoopPerIteration (addContainer pod) (Pod_Containers pod))
             (snd r)
      else snd r
    else s.
Proof.
  unfold exec at 1. unfold onAddPerIteration, bind, Matches. simpl.
  destruct (labelSelector s (Pod_Labels pod)); simpl; [|done].
  by destruct (anyLoopPerIteration _ _ _) as [[] s2].
Qed.

Lemma sameButVars_refl s : sameButVars s s.
Proof. by split. Qed.

Lemma sameButVars_vars_l l s1 s2 :
  sameButVars s1 s2 → sameButVars (set_vars l s1) s2.
Proof. intros []. by split. Qed.

Lemma sameButVars_vars_r l s1 s2 :
  sameButVars s1 s2 → sameButVars s1 (set_vars l s2).
Proof. intros []. by split. Qed.

Lemma sameButVars_objs_length s1 s2 :
  sameButVars s1 s2 → length (objs s1) = length (objs s2).
Proof.
  intros [_ _ H _ _ _]. apply (f_equal length) in H.
  by rewrite !length_fmap in H.
Qed.

Lemma sameButVars_callFilter pod x1 x2 s1 s2 :
  sameButVars s1 s2 → deref s1 x1 = deref s2 x2 →
  fst (callFilter pod x1 s1) = fst (callFilter pod x2 s2)
  ∧ sameButVars (exec (callFilter pod x1) s1) (exec (callFilter pod x2) s2).
Proof.
  intros [H1 H2 H3 H4 H5 H6] Hd. unfold callFilter, exec. simpl.
  rewrite Hd, H6. split; [done|]. split; simpl; try done.
  by rewrite H2.
Qed.

Lemma sameButVars_addContainer pod x1 x2 s1 s2 :
  sameButVars s1 s2 → deref s1 x1 = deref s2 x2 →
  sameButVars (exec (addContainer pod x1) s1) (exec (addContainer pod x2) s2).
Proof.
  intros Hs Hd. pose proof (sameButVars_objs_length _ _ Hs) as Hlen.
  destruct Hs as [H1 H2 H3 H4 H5 H6].
  destruct (tailers s1 !! buildKey pod (deref s1 x1)) as [t|] eqn:E1.
  - assert (E2 : tailers s2 !! buildKey pod (deref s2 x2) = Some t)
      by by rewrite <- Hd, <- H1.
    rewrite (addContainer_present _ _ _ _ E1), (addContainer_present _ _ _ _ E2).
    split; simpl; try done. by rewrite H2, Hd.
  - assert (E2 : tailers s2 !! buildKey pod (deref s2 x2) = None)
      by by rewrite <- Hd, <- H1.
    rewrite (addContainer_absent _ _ _ E1), (addContainer_absent _ _ _ E2).
    split; simpl; try done.
    + by rewrite H1, Hd, Hlen.
    + by rewrite H2, Hd, Hlen.
    + by rewrite !fmap_app, H3.
    + rewrite !fmap_app, H4. simpl. by rewrite Hlen.
Qed.

Lemma sameButVars_deleteContainer pod x1 x2 s1 s2 :
  sameButVars s1 s2 → deref s1 x1 = deref s2 x2 →
  sameButVars (exec (deleteContainer pod x1) s1)
              (exec (deleteContainer pod x2) s2).
Proof.
  intros [H1 H2 H3 H4 H5 H6] Hd.
  destruct (tailers s1 !! buildKey pod (deref s1 x1)) as [t|] eqn:E1.
  - assert (E2 : tailers s2 !! buildKey pod (deref s2 x2) = Some t)
      by by rewrite <- Hd, <- H1.
    rewrite (deleteContainer_present _ _ _ _ E1),
      (deleteContainer_present _ _ _ _ E2).
    split; simpl; try done.
    + by rewrite H1, Hd.
    + by rewrite H2, Hd.
  - assert (E2 : tailers s2 !! buildKey pod (deref s2 x2) = None)
      by by rewrite <- Hd, <- H1.
    rewrite (deleteContainer_absent _ _ _ E1),
      (deleteContainer_absent _ _ _ E2).
    split; simpl; try done. by rewrite H2, Hd.
Qed.

Lemma anyLoop_cons pod x c cs s :
  anyLoop pod x (c :: cs) s
  = let a := exec (assign x c) s in
    if fst (callFilter pod x a) then (true, exec (callFilter pod x) a)
    else anyLoop pod x cs (exec (callFilter pod x) a).
Proof.
  simpl. unfold bind, callFilter, exec. simpl.
  by destruct (filterFunc s pod _).
Qed.

Lemma anyLoopPerIteration_cons pod c cs s :
  anyLoopPerIteration pod (c :: cs) s
  = let x := length (vars s) in
    let a := exec (assign x c) (exec newVar s) in
    if fst (callFilter pod x a) then (true, exec (callFilter pod x) a)
    else anyLoopPerIteration pod cs (exec (callFilter pod x) a).
Proof.
  simpl. unfold bind, callFilter, exec. simpl.
  by destruct (filterFunc s pod _).
Qed.

Lemma sameButVars_anyLoop pod x cs s1 s2 :
  x < length (vars s1) → sameButVars s1 s2 →
  fst (anyLoop pod x cs s1) = fst (anyLoopPerIteration pod cs s2)
  ∧ length (vars (snd (anyLoop pod x cs s1))) = length (vars s1)
  ∧ sameButVars (snd (anyLoop pod x cs s1))
                (snd (anyLoopPerIteration pod cs s2)).
Proof.
  revert s1 s2. induction cs as [|c cs IH]; intros s1 s2 Hx Hs; [done|].
  rewrite anyLoop_cons, anyLoopPerIteration_cons. cbv zeta.
  set (a1 := exec (assign x c) s1).
  set (a2 := exec (assign (length (vars s2)) c) (exec newVar s2)).
  assert (Hd : deref a1 x = deref a2 (length (vars s2))).
  { unfold a1, a2. by rewrite deref_assign, declared_deref. }
  assert (Ha : sameButVars a1 a2).
  { unfold a1, a2, exec, assign, newVar. simpl.
    by apply sameButVars_vars_l, sameButVars_vars_r, sameButVars_vars_r. }
  assert (Hv : length (vars (exec (callFilter pod x) a1)) = length (vars s1))
    by (simpl; by rewrite length_insert).
  destruct (sameButVars_callFilter pod x (length (vars s2)) a1 a2 Ha Hd)
    as [Hf Hc].
  rewrite <- Hf. destruct (fst (callFilter pod x a1)); simpl fst; simpl snd.
  - done.
  - destruct (IH _ _ (eq_ind_r (lt x) Hx Hv) Hc) as (I1 & I2 & I3).
    split_and!; [exact I1 | by rewrite I2 | exact I3].
Qed.

Lemma sameButVars_rangeLoop body x cs s1 s2 :
  (∀ x1 x2 t1 t2, sameButVars t1 t2 → deref t1 x1 = deref t2 x2 →
     sameButVars (exec (body x1) t1) (exec (body x2) t2)) →
  (∀ x1 t1, vars (exec (body x1) t1) = vars t1) →
  x < length (vars s1) → sameButVars s1 s2 →
  sameButVars (exec (rangeLoop body x cs) s1)
              (exec (rangeLoopPerIteration body cs) s2).
Proof.
  intros Hbody Hvars. revert s1 s2.
  induction cs as [|c cs IH]; intros s1 s2 Hx Hs; [done|].
  rewrite rangeLoop_cons, rangeLoopPerIteration_cons.
  set (a1 := exec (assign x c) s1).
  set (a2 := exec (assign (length (vars s2)) c) (exec newVar s2)).
  assert (Hd : deref a1 x = deref a2 (length (vars s2))).
  { unfold a1, a2. by rewrite deref_assign, declared_deref. }
  assert (Ha : sameButVars a1 a2).
  { unfold a1, a2, exec, assign, newVar. simpl.
    by apply sameButVars_vars_l, sameButVars_vars_r, sameButVars_vars_r. }
  apply IH; [|by apply Hbody].
  rewrite Hvars. simpl. by rewrite length_insert.
Qed.

(** X15. Whether the range variable is declared once per loop or once per
    iteration, a handler calls the same callbacks with the same values in
    the same order, does the same to the mutex and to the registry, and
    builds and launches the same tailers for the same pods: only the
    addresses of the variables differ. *)
Theorem handlers_agree n s1 s2 :
  sameButVars s1 s2 → sameButVars (handle n s1) (handlePerIteration n s2).
Proof.
  intros Hs. destruct n as [[pod|d]|[pod|d]|]; unfold handle,
    handlePerIteration; try done.
  - rewrite exec_onAdd, exec_onAddPerIteration.
    rewrite <- (sbv_selector _ _ Hs).
    destruct (labelSelector s1 (Pod_Labels pod)); [|done]. cbv zeta.
    assert (Hx : length (vars s1) < length (vars (exec newVar s1))).
    { simpl. rewrite length_app. simpl. lia. }
    destruct (sameButVars_anyLoop pod (length (vars s1))
                (Pod_Containers pod) (exec newVar s1) s2 Hx)
      as (Hf & Hv & Ha); [by apply sameButVars_vars_l|].
    rewrite <- Hf.
    destruct (fst (anyLoop _ _ _ _)); [|done].
    apply sameButVars_rangeLoop.
    + apply sameButVars_addContainer.
    + apply addContainer_vars.
    + simpl. rewrite length_app. simpl. lia.
    + by apply sameButVars_vars_l.
  - rewrite exec_onDelete. unfold exec at 2, onDeletePerIteration.
    apply sameButVars_rangeLoop.
    + apply sameButVars_deleteContainer.
    + apply deleteContainer_vars.
    + simpl. rewrite length_app. simpl. lia.
    + by apply sameButVars_vars_l.
Qed.

Lemma handlers_agree_witness :
  sameButVars ctl0 ctl0
  ∧ trace (handlePerIteration (Added (IsPod P1)) ctl0) = trace ctl1
  ∧ tailers (handlePerIteration (Added (IsPod P1)) ctl0) = tailers ctl1.
Proof.
  assert (H : sameButVars ctl0 ctl0) by (by split).
  pose proof (handlers_agree (Added (IsPod P1)) ctl0 ctl0 H) as [E1 E2 _ _ _ _].
  split; [exact H|]. split; [symmetry; exact E2 | symmetry; exact E1].
Defined.

Lemma performAll_app a b s :
  performAll (a ++ b) s = performAll b (performAll a s).
Proof. unfold performAll. by rewrite foldl_app. Qed.

Lemma rangeLoopPerIteration_actions body (act : nat → Action) cs s :
  (∀ x t, perform (act x) t = exec (body x) t) →
  (∀ x, isPrimitive (act x) = true) →
  ∃ acts, exec (rangeLoopPerIteration body cs) s = performAll acts s
          ∧ forallb isPrimitive acts = true.
Proof.
  intros Hact Hprim. revert s. induction cs as [|c cs IH]; intros s.
  - by exists [].
  - rewrite rangeLoopPerIteration_cons.
    destruct (IH (exec (body (length (vars s)))
                   (exec (assign (length (vars s)) c) (exec newVar s))))
      as (acts & Hacts & Hp).
    exists ([DeclareVar; AssignVar (length (vars s)) c; act (length (vars s))]
            ++ acts).
    split.
    + rewrite performAll_app, Hacts. simpl. by rewrite Hact.
    + rewrite forallb_app, Hp. simpl. by rewrite Hprim.
Qed.

Lemma anyLoopPerIteration_actions pod cs s :
  ∃ acts, snd (anyLoopPerIteration pod cs s) = performAll acts s
          ∧ forallb isPrimitive acts = true.
Proof.
  revert s. induction cs as [|c cs IH]; intros s.
  - by exists [].
  - rewrite anyLoopPerIteration_cons. cbv zeta.
    set (a := exec (assign (length (vars s)) c) (exec newVar s)).
    destruct (fst (callFilter pod (length (vars s)) a)).
    + by exists [DeclareVar; AssignVar (length (vars s)) c;
                 CallFilter pod (length (vars s))].
    + destruct (IH (exec (callFilter pod (length (vars s))) a))
        as (acts & Hacts & Hp).
      exists ([DeclareVar; AssignVar (length (vars s)) c;
               CallFilter pod (length (vars s))] ++ acts).
      split; [by rewrite performAll_app, Hacts|].
      by rewrite forallb_app, Hp.
Qed.

(** X16. With one variable per iteration too, what a handler does is a
    sequence of the steps over which the properties of executions are
    stated: declarations, assignments, and calls of the predicate, of
    [addContainer] and of [deleteContainer]. *)
Theorem handlePerIteration_actions n s :
  ∃ acts, handlePerIteration n s = performAll acts s
          ∧ forallb isPrimitive acts = true.
Proof.
  destruct n as [[pod|d]|[pod|d]|]; unfold handlePerIteration;
    try (by exists []).
  - rewrite exec_onAddPerIteration.
    destruct (labelSelector s (Pod_Labels pod)); [|by exists []]. cbv zeta.
    destruct (anyLoopPerIteration_actions pod (Pod_Containers pod) s)
      as (acts1 & H1 & Hp1).
    destruct (fst (anyLoopPerIteration _ _ _)); [|by exists acts1].
    destruct (rangeLoopPerIteration_actions (addContainer pod)
                (CallAddContainer pod) (Pod_Containers pod)
                (snd (anyLoopPerIteration pod (Pod_Containers pod) s)))
      as (acts2 & H2 & Hp2); [done..|].
    exists (acts1 ++ acts2). split.
    + by rewrite performAll_app, <- H1, H2.
    + by rewrite forallb_app, Hp1, Hp2.
  - apply (rangeLoopPerIteration_actions (deleteContainer pod)
             (CallDeleteContainer pod)); done.
Qed.

(** ** What the error-hook reads, with one variable per iteration *)

Lemma Captured_init ns sel filter : Captured (NewController ns sel filter).
Proof. split; simpl; intros g gr Hg; by rewrite lookup_nil in Hg. Qed.

(** A step that keeps the variables and the goroutines and only adds to the
    log. *)
Lemma Captured_grow s s' :
  vars s' = vars s → goroutines s' = goroutines s →
  trace s `prefix_of` trace s' → Captured s → Captured s'.
Proof.
  intros Hv Hg [evs Ht] [C1 C2]. split.
  - intros g gr. rewrite Hg, Hv. apply C1.
  - intros g gr. rewrite Hg. intros Hgr. unfold deref. rewrite Hv, Ht.
    apply elem_of_app. left. by apply (C2 g gr).
Qed.

Lemma Captured_declared c s :
  Captured s →
  Captured (exec (assign (length (vars s)) c) (exec newVar s)).
Proof.
  intros [C1 C2]. split.
  - intros g gr Hg. rewrite declared_vars, length_app. simpl.
    pose proof (C1 g gr Hg). lia.
  - intros g gr Hg. unfold deref. rewrite declared_vars.
    rewrite lookup_app_l by by apply (C1 g gr). by apply (C2 g gr).
Qed.

Lemma Captured_callFilter pod x s :
  Captured s → Captured (exec (callFilter pod x) s).
Proof. apply Captured_grow; try done. by apply prefix_app_r. Qed.

Lemma Captured_addContainer pod x s :
  x < length (vars s) → Captured s → Captured (exec (addContainer pod x) s).
Proof.
  intros Hx HC.
  destruct (tailers s !! buildKey pod (deref s x)) as [t|] eqn:H.
  - rewrite (addContainer_present _ _ _ _ H).
    apply (Captured_grow s); try done. by apply prefix_app_r.
  - rewrite (addContainer_absent _ _ _ H). destruct HC as [C1 C2].
    split; simpl.
    + intros g gr Hg. apply lookup_app_Some in Hg as [Hg|[_ Hg]].
      * by apply (C1 g gr).
      * by apply list_lookup_singleton_Some in Hg as [_ <-].
    + intros g gr Hg. rewrite elem_of_app.
      apply lookup_app_Some in Hg as [Hg|[_ Hg]].
      * left. by apply (C2 g gr).
      * apply list_lookup_singleton_Some in Hg as [_ <-]. simpl.
        right. do 5 right. left.
Qed.

Lemma Captured_deleteContainer pod x s :
  Captured s → Captured (exec (deleteContainer pod x) s).
Proof.
  intros HC.
  destruct (tailers s !! buildKey pod (deref s x)) as [t|] eqn:H.
  - rewrite (deleteContainer_present _ _ _ _ H).
    apply (Captured_grow s); try done. by apply prefix_app_r.
  - rewrite (deleteContainer_absent _ _ _ H).
    apply (Captured_grow s); try done. by apply prefix_app_r.
Qed.

Lemma Captured_rangeLoopPerIteration body cs s :
  (∀ x t, x < length (vars t) → Captured t → Captured (exec (body x) t)) →
  Captured s → Captured (exec (rangeLoopPerIteration body cs) s).
Proof.
  intros Hbody. revert s. induction cs as [|c cs IH]; intros s HC; [done|].
  rewrite rangeLoopPerIteration_cons. apply IH, Hbody.
  - rewrite declared_vars, length_app. simpl. lia.
  - by apply Captured_declared.
Qed.

Lemma Captured_anyLoopPerIteration pod cs s :
  Captured s → Captured (snd (anyLoopPerIteration pod cs s)).
Proof.
  revert s. induction cs as [|c cs IH]; intros s HC; [done|].
  rewrite anyLoopPerIteration_cons. cbv zeta.
  pose proof (Captured_callFilter pod (length (vars s)) _
                (Captured_declared c s HC)) as H.
  destruct (fst (callFilter _ _ _)); [exact H | by apply IH].
Qed.

Lemma Captured_handlePerIteration n s :
  Captured s → Captured (handlePerIteration n s).
Proof.
  intros HC. destruct n as [[pod|d]|[pod|d]|]; unfold handlePerIteration;
    try done.
  - rewrite exec_onAddPerIteration.
    destruct (labelSelector s (Pod_Labels pod)); [|done]. cbv zeta.
    pose proof (Captured_anyLoopPerIteration pod (Pod_Containers pod) s HC)
      as H.
    destruct (fst (anyLoopPerIteration _ _ _)); [|done].
    apply Captured_rangeLoopPerIteration; [|done].
    intros x t. apply Captured_addContainer.
  - apply Captured_rangeLoopPerIteration; [|done].
    intros x t _. apply Captured_deleteContainer.
Qed.

Lemma Captured_workerReturn g err s s' :
  workerReturn g err s = Some s' → Captured s → Captured s'.
Proof.
  intros Hw [C1 C2]. unfold workerReturn in Hw.
  destruct (goroutines s !! g) as [gr|] eqn:Hg; [|done].
  destruct (g_returned gr) eqn:Hr; [done|]. injection Hw as <-.
  set (gr' := {| g_tailer := g_tailer gr; g_pod := g_pod gr;
                 g_container := g_container gr; g_returned := true |}).
  assert (Hsame : ∀ i gi, <[g:=gr']> (goroutines s) !! i = Some gi →
    ∃ gj, goroutines s !! i = Some gj ∧ g_tailer gi = g_tailer gj
          ∧ g_pod gi = g_pod gj ∧ g_container gi = g_container gj).
  { intros i gi Hi. destruct (decide (i = g)) as [->|Hne].
    - rewrite list_lookup_insert_eq in Hi by by eapply lookup_lt_Some.
      injection Hi as <-. by exists gr.
    - rewrite list_lookup_insert_ne in Hi by done. by exists gi. }
  destruct err as [e|]; split; simpl; intros i gi Hi;
    destruct (Hsame i gi Hi) as (gj & Hj & E1 & E2 & E3);
    rewrite ?E1, ?E2, ?E3.
  - by apply (C1 i gj).
  - rewrite elem_of_app. left. by apply (C2 i gj).
  - by apply (C1 i gj).
  - by apply (C2 i gj).
Qed.

Lemma Captured_occurAll l s s' :
  occurAll l s = Some s' → Captured s → Captured s'.
Proof.
  revert s. induction l as [|o l IH]; intros s; simpl.
  - by intros [= <-].
  - destruct o as [n|g err]; simpl.
    + intros Hl HC. apply (IH _ Hl). by apply Captured_handlePerIteration.
    + destruct (workerReturn g err s) as [s1|] eqn:Hw; [|done].
      intros Hl HC. apply (IH _ Hl). by apply (Captured_workerReturn g err s).
Qed.

(** X17. With one variable per iteration, in every execution of
    notifications and worker returns, when [Run] returns an error in a
    goroutine the error-hook is called with the pod of the goroutine's
    tailer and with the very container under whose key that tailer was put
    in the registry. *)
Theorem error_hook_names_own_container l ns sel filter s g gr e :
  occurAll l (NewController ns sel filter) = Some s →
  goroutines s !! g = Some gr →
  g_returned gr = false →
  ∃ c s',
    workerReturn g (Some e) s = Some s'
    ∧ emitted s s' = [ErrorCall (g_pod gr) c e]
    ∧ MapStore (buildKey (g_pod gr) c) (g_tailer gr) ∈ trace s.
Proof.
  intros Hl Hg Hr.
  pose proof (Captured_occurAll _ _ _ Hl (Captured_init ns sel filter))
    as [_ C2].
  exists (deref s (g_container gr)). eexists. split_and!.
  - unfold workerReturn. rewrite Hg, Hr. reflexivity.
  - by apply emitted_app.
  - by apply (C2 g gr).
Qed.

Lemma error_hook_names_own_container_witness :
  occurAll [Notified (Added (IsPod P1))] ctl0 = Some ctl1PerIteration
  ∧ g_returned <$> goroutines ctl1PerIteration !! 0 = Some false
  ∧ emitted ctl1PerIteration
      <$> workerReturn 0 (Some "boom") ctl1PerIteration
    = Some [ErrorCall P1 c1 "boom"]
  ∧ ∃ c s',
      workerReturn 0 (Some "boom") ctl1PerIteration = Some s'
      ∧ emitted ctl1PerIteration s' = [ErrorCall P1 c "boom"]
      ∧ MapStore (buildKey P1 c) 0 ∈ trace ctl1PerIteration.
Proof.
  assert (H1 : occurAll [Notified (Added (IsPod P1))] ctl0
               = Some ctl1PerIteration) by reflexivity.
  assert (H2 : goroutines ctl1PerIteration !! 0
               = Some {| g_tailer := 0; g_pod := P1; g_container := 1;
                         g_returned := false |})
    by (vm_compute; reflexivity).
  split; [exact H1|]. split; [by rewrite H2|].
  split; [vm_compute; reflexivity|].
  exact (error_hook_names_own_container _ "ns" selectAppX acceptC1
           ctl1PerIteration 0 _ "boom" H1 H2 eq_refl).
Defined.
